(** * A shallow embedding of the lexer and recursive-descent evaluator of
      [main.go], with the properties of its scanner and of its parser.

    The Go methods with a pointer receiver are computations of a state
    monad whose state is the receiver; a run-time panic (index or slice
    out of range) and the exhaustion of the iteration budget given to a
    [for] loop are outcomes of their own, so that "returns" is something
    one proves. *)

From Stdlib Require Import Bool Arith Lia List ZArith NArith Ascii String.
From Stdlib Require Import SpecFloat DecimalString.
Import ListNotations.

Local Open Scope list_scope.
Local Open Scope string_scope.

Set Implicit Arguments.

(* ===================================================================== *)
(** ** The monad of a Go method: state, panic, iteration budget *)
(* ===================================================================== *)

Section Exec.

Variable St : Type.

Inductive outcome (A : Type) : Type :=
| Done (a : A) (s : St)       (* normal return, with the state left behind *)
| Panic                       (* index or slice bounds out of range *)
| StillRunning (s : St).      (* a loop was still turning when its budget ended *)

Arguments Panic {A}.
Arguments StillRunning {A} s.

Definition M (A : Type) : Type := St -> outcome A.

Definition ret {A} (a : A) : M A := fun s => Done a s.

Definition bind {A B} (c : M A) (k : A -> M B) : M B :=
  fun s =>
    match c s with
    | Done a s' => k a s'
    | Panic => Panic
    | StillRunning s' => StillRunning s'
    end.

Definition get : M St := fun s => Done s s.
Definition gets {A} (f : St -> A) : M A := fun s => Done (f s) s.
Definition modify (f : St -> St) : M unit := fun s => Done tt (f s).
Definition panic {A} : M A := fun _ => Panic.

(** [for cond { body }], the loop-carried locals being the accumulator
    [a].  The guard is evaluated first; the budget is only looked at
    when the body has to run once more. *)
Fixpoint while {A} (cond : A -> M bool) (body : A -> M A)
         (fuel : nat) (a : A) : M A :=
  fun s =>
    match cond a s with
    | Done true s1 =>
        match fuel with
        | O => StillRunning s1
        | S fuel' =>
            match body a s1 with
            | Done a' s2 => while cond body fuel' a' s2
            | Panic => Panic
            | StillRunning s2 => StillRunning s2
            end
        end
    | Done false s1 => Done a s1
    | Panic => Panic
    | StillRunning s1 => StillRunning s1
    end.

End Exec.

Arguments Done {St A} a s.
Arguments Panic {St A}.
Arguments StillRunning {St A} s.
Arguments ret {St A} a _.
Arguments bind {St A B} c k _.
Arguments get {St} _.
Arguments gets {St A} f _.
Arguments modify {St} f _.
Arguments panic {St A} _.
Arguments while {St A} cond body fuel a _.

Declare Scope go_scope.
Delimit Scope go_scope with go.
Notation "x <- c ;; k" := (bind c (fun x => k))
  (at level 61, c at next level, right associativity) : go_scope.
Notation "c ;; k" := (bind c (fun _ => k))
  (at level 61, right associativity) : go_scope.
Local Open Scope go_scope.

(* ===================================================================== *)
(** ** Go strings: byte sequences, indexing and slicing *)
(* ===================================================================== *)

(** [s[i]]: panics when [i] is not below [len(s)]. *)
Definition byte_at {St} (s : string) (i : nat) : M St ascii :=
  match String.get i s with
  | Some c => ret c
  | None => panic
  end.

(** [s[lo:hi]]: panics unless [lo <= hi <= len(s)]. *)
Definition slice {St} (s : string) (lo hi : nat) : M St string :=
  if ((lo <=? hi) && (hi <=? String.length s))%nat
  then ret (substring lo (hi - lo) s)
  else panic.

(* ===================================================================== *)
(** ** Package [unicode] on the runes a byte converts to

    [rune(b)] of a byte [b] is the code point of the same number, so
    the three predicates are only ever asked about runes up to
    [MaxLatin1]; the definitions below are their Latin-1 branches, as
    Go's package documents them ([IsSpace]: the eight Latin-1 spaces;
    [IsDigit]: ['0'..'9']; [IsLetter]: category L).  A rune above
    [MaxLatin1] is outside this model. *)
(* ===================================================================== *)

Definition rune : Type := N.

Definition rune_of_byte (b : ascii) : rune := N_of_ascii b.

Definition MaxLatin1 : rune := 255%N.

Definition between (lo hi r : N) : bool := (lo <=? r)%N && (r <=? hi)%N.

Definition IsSpace (r : rune) : bool :=
  existsb (N.eqb r) [9; 10; 11; 12; 13; 32; 133; 160]%N.

Definition IsDigit (r : rune) : bool := between 48 57 r.

Definition IsLetter (r : rune) : bool :=
  between 65 90 r || between 97 122 r
  || (r =? 170)%N || (r =? 181)%N || (r =? 186)%N
  || between 192 214 r || between 216 246 r || between 248 255 r.

(* ===================================================================== *)
(** ** Tokens *)
(* ===================================================================== *)

(** [type TokenKind int] and its constants, lines 12-21. *)
Inductive TokenKind : Type :=
| TokenInvalid
| TokenNumber
| TokenIdentifier
| TokenOperator
| TokenPunctuation
| TokenKeyword.

Definition TokenKind_eqb (a b : TokenKind) : bool :=
  match a, b with
  | TokenInvalid, TokenInvalid
  | TokenNumber, TokenNumber
  | TokenIdentifier, TokenIdentifier
  | TokenOperator, TokenOperator
  | TokenPunctuation, TokenPunctuation
  | TokenKeyword, TokenKeyword => true
  | _, _ => false
  end.

(** [type Token struct], lines 23-26. *)
Record Token : Type := mkToken { Kind : TokenKind; Value : string }.

(** [Token{}], the zero value. *)
Definition Token_zero : Token := mkToken TokenInvalid "".

(* ===================================================================== *)
(** ** The lexer *)
(* ===================================================================== *)

(** [type Lexer struct], lines 28-33. *)
Record Lexer : Type := mkLexer {
  l_input : string;
  l_pos : nat;
  l_tokens : list Token;
  l_current : Token
}.

(** Lines 35-42. *)
Definition NewLexer (input : string) : Lexer :=
  mkLexer input 0 [] Token_zero.

(** [l.pos++] *)
Definition pos_incr : M Lexer unit :=
  modify (fun l => mkLexer (l_input l) (S (l_pos l)) (l_tokens l) (l_current l)).

(** [l.input[l.pos]] *)
Definition cur_byte : M Lexer ascii :=
  l <- get ;; byte_at (l_input l) (l_pos l).

(** [l.pos < len(l.input)] *)
Definition in_input : M Lexer bool :=
  gets (fun l => (l_pos l <? String.length (l_input l))%nat).

(** Lines 91-97. *)
Definition emitToken (kind : TokenKind) (value : string) : M Lexer unit :=
  let token := mkToken kind value in
  modify (fun l => mkLexer (l_input l) (l_pos l) (l_tokens l ++ [token]) (l_current l)).

(** The guard of the loop of [readNumber], line 65: the byte is only
    read when [l.pos] is inside the text. *)
Definition readNumber_cond : M Lexer bool :=
  more <- in_input ;;
  if more then
    c <- cur_byte ;;
    if IsDigit (rune_of_byte c) then ret true
    else c' <- cur_byte ;; ret (Ascii.eqb c' ".")
  else ret false.

(** Lines 63-69. *)
Definition readNumber (fuel : nat) : M Lexer unit :=
  start <- gets l_pos ;;
  while (fun _ => readNumber_cond) (fun _ => pos_incr) fuel tt ;;
  l <- get ;;
  text <- slice (l_input l) start (l_pos l) ;;
  emitToken TokenNumber text.

(** The guard of the loop of [readIdentifier], line 73. *)
Definition readIdentifier_cond : M Lexer bool :=
  more <- in_input ;;
  if more then
    c <- cur_byte ;;
    if IsLetter (rune_of_byte c) then ret true
    else
      c' <- cur_byte ;;
      if IsDigit (rune_of_byte c') then ret true
      else c'' <- cur_byte ;; ret (Ascii.eqb c'' "_")
  else ret false.

(** Lines 71-77. *)
Definition readIdentifier (fuel : nat) : M Lexer unit :=
  start <- gets l_pos ;;
  while (fun _ => readIdentifier_cond) (fun _ => pos_incr) fuel tt ;;
  l <- get ;;
  text <- slice (l_input l) start (l_pos l) ;;
  emitToken TokenIdentifier text.

(** The [case] list of [readSymbol], line 82. *)
Definition is_symbol (c : ascii) : bool :=
  existsb (Ascii.eqb c) ["+"; "-"; "*"; "/"; "("; ")"; "{"; "}"; "="; ";"]%char.

(** Lines 79-89. *)
Definition readSymbol : M Lexer unit :=
  start <- gets l_pos ;;
  c <- cur_byte ;;
  if is_symbol c then
    pos_incr ;;
    l <- get ;;
    text <- slice (l_input l) start (l_pos l) ;;
    emitToken TokenPunctuation text
  else
    pos_incr.

(** One turn of the loop of [Lex], lines 46-57. *)
Definition Lex_body (fuel : nat) : M Lexer unit :=
  c <- cur_byte ;;
  if IsSpace (rune_of_byte c) then pos_incr
  else
    c1 <- cur_byte ;;
    if IsDigit (rune_of_byte c1) then readNumber fuel
    else
      c2 <- cur_byte ;;
      if IsLetter (rune_of_byte c2) then readIdentifier fuel
      else readSymbol.

(** Lines 44-61. *)
Definition Lex (fuel : nat) : M Lexer (list Token) :=
  while (fun _ => in_input) (fun _ => Lex_body fuel) fuel tt ;;
  gets l_tokens.

(** The scanner as [main] uses it (lines 211-212): a fresh lexer on the
    text, then [Lex].
    No loop of the scanner turns more often than the text has bytes,
    which is the budget given here ([Lex_budget] below shows that any
    larger one gives the same tokens). *)
Definition tokenize (input : string) : outcome Lexer (list Token) :=
  Lex (String.length input) (NewLexer input).

(** The tokens of a run that returned. *)
Definition returned {St A} (o : outcome St A) : option A :=
  match o with
  | Done a _ => Some a
  | _ => None
  end.

(* ===================================================================== *)
(** ** [float64] and the two library routines the evaluator calls

    A [float64] is an IEEE 754 binary64 number: [spec_float] at
    precision 53 and maximal exponent 1024, whose operations round to
    nearest, ties to even, as Go's do. *)
(* ===================================================================== *)

Definition float64 : Type := spec_float.

Definition prec : Z := 53.
Definition emax : Z := 1024.

Definition f64_zero : float64 := S754_zero false.
Definition f64_add : float64 -> float64 -> float64 := SFadd prec emax.
Definition f64_sub : float64 -> float64 -> float64 := SFsub prec emax.
Definition f64_mul : float64 -> float64 -> float64 := SFmul prec emax.
Definition f64_div : float64 -> float64 -> float64 := SFdiv prec emax.

(** The nearest [float64] to [(-1)^neg * m * 2^e]. *)
Definition f64_of_binary (neg : bool) (m : Z) (e : Z) : float64 :=
  match m with
  | Zpos p => binary_round prec emax neg p e
  | _ => S754_zero neg
  end.

(** The nearest [float64] to [(-1)^neg * m * 10^e]. *)
Definition f64_of_decimal (neg : bool) (m : Z) (e : Z) : float64 :=
  match m with
  | Zpos p =>
      if (0 <=? e)%Z then binary_round prec emax neg (p * Z.to_pos (10 ^ e)) 0
      else
        let '(q, e', l) :=
          SFdiv_core_binary prec emax (Zpos p) 0 (10 ^ (- e)) 0 in
        binary_round_aux prec emax neg q e' l
  | _ => S754_zero neg
  end.

Module strconv.

(** The [Err] of a [*NumError]. *)
Inductive error : Type := ErrSyntax | ErrRange.

Definition lower (c : ascii) : ascii :=
  ascii_of_N (N.lor (N_of_ascii c) 32).

Definition is_digit (c : ascii) : bool := between 48 57 (N_of_ascii c).
Definition digit_val (c : ascii) : Z := Z.of_N (N_of_ascii c) - 48.

Definition is_hex_letter (c : ascii) : bool :=
  between 97 102 (N_of_ascii (lower c)).
Definition hex_letter_val (c : ascii) : Z :=
  Z.of_N (N_of_ascii (lower c)) - 97 + 10.

Fixpoint commonPrefixLenIgnoreCase (s prefix : string) : nat :=
  match s, prefix with
  | String c s', String p prefix' =>
      let c := if between 65 90 (N_of_ascii c)
               then ascii_of_N (N_of_ascii c + 32) else c in
      if Ascii.eqb c p then S (commonPrefixLenIgnoreCase s' prefix') else 0
  | _, _ => 0
  end.

(** "inf", "infinity" (possibly signed) and "nan", in any case: the
    value and the number of bytes it was read from. *)
Definition special (s : string) : option (float64 * nat) :=
  let infinity (neg : bool) (nsign : nat) (s : string) :=
    let n := commonPrefixLenIgnoreCase s "infinity" in
    let n := if (3 <? n)%nat && (n <? 8)%nat then 3 else n in
    if (n =? 3)%nat || (n =? 8)%nat
    then Some (S754_infinity neg, nsign + n) else None in
  match s with
  | "" => None
  | String c rest =>
      if Ascii.eqb c "+" then infinity false 1 rest
      else if Ascii.eqb c "-" then infinity true 1 rest
      else if Ascii.eqb c "i" || Ascii.eqb c "I" then infinity false 0 s
      else if Ascii.eqb c "n" || Ascii.eqb c "N" then
        if (commonPrefixLenIgnoreCase s "nan" =? 3)%nat
        then Some (S754_nan, 3) else None
      else None
  end.

(** What the scan of a mantissa has seen. *)
Record mantissa : Type := mkMantissa {
  mant : Z;            (* the digits read, as a number *)
  frac : Z;            (* how many of them came after the point *)
  sawdot : bool;
  sawdigits : bool;
  underscores : bool
}.

(** Digits, at most one point, and underscores; stops at the first
    byte that is none of these and returns what is left. *)
Fixpoint read_mantissa (hex : bool) (s : string) (a : mantissa)
  : mantissa * string :=
  match s with
  | "" => (a, "")
  | String c s' =>
      let digit (v : Z) :=
        mkMantissa (mant a * (if hex then 16 else 10) + v)
                   (if sawdot a then frac a + 1 else frac a)
                   (sawdot a) true (underscores a) in
      if Ascii.eqb c "_" then
        read_mantissa hex s'
          (mkMantissa (mant a) (frac a) (sawdot a) (sawdigits a) true)
      else if Ascii.eqb c "." then
        if sawdot a then (a, s)
        else read_mantissa hex s'
               (mkMantissa (mant a) (frac a) true (sawdigits a) (underscores a))
      else if is_digit c then read_mantissa hex s' (digit (digit_val c))
      else if hex && is_hex_letter c
           then read_mantissa hex s' (digit (hex_letter_val c))
      else (a, s)
  end.

(** The digits and underscores of an exponent. *)
Fixpoint read_exponent (s : string) (e : Z) (us : bool)
  : Z * bool * string :=
  match s with
  | "" => (e, us, "")
  | String c s' =>
      if Ascii.eqb c "_" then read_exponent s' e true
      else if is_digit c then read_exponent s' (e * 10 + digit_val c) us
      else (e, us, s)
  end.

(** Underscores may only stand between two digits, or between a base
    prefix and a digit.  [saw] is the last byte's class: ["^"] at the
    start, ["0"] after a digit or base prefix, ["_"] after an
    underscore, ["!"] otherwise. *)
Fixpoint underscoreOK_from (hex : bool) (saw : ascii) (s : string) : bool :=
  match s with
  | "" => negb (Ascii.eqb saw "_")
  | String c s' =>
      if is_digit c || (hex && is_hex_letter c)
      then underscoreOK_from hex "0" s'
      else if Ascii.eqb c "_" then
        if Ascii.eqb saw "0" then underscoreOK_from hex "_" s' else false
      else if Ascii.eqb saw "_" then false
      else underscoreOK_from hex "!" s'
  end.

Definition underscoreOK (s : string) : bool :=
  let s := match s with
           | String c s' =>
               if Ascii.eqb c "-" || Ascii.eqb c "+" then s' else s
           | _ => s
           end in
  match s with
  | String c0 (String c1 s') =>
      let p := lower c1 in
      if Ascii.eqb c0 "0"
         && (Ascii.eqb p "b" || Ascii.eqb p "o" || Ascii.eqb p "x")
      then underscoreOK_from (Ascii.eqb p "x") "0" s'
      else underscoreOK_from false "^" s
  | _ => underscoreOK_from false "^" s
  end.

(** A number that fills the whole of [s]: sign, mantissa in base 10 or
    (after "0x") 16, exponent (required in base 16).  [None] when [s]
    is not of that form. *)
Definition readFloat (s : string) : option float64 :=
  match s with
  | "" => None
  | String c0 after_sign =>
      let neg := Ascii.eqb c0 "-" in
      let body := if Ascii.eqb c0 "+" || neg then after_sign else s in
      let hex :=
        match body with
        | String z (String x (String _ _)) =>
            Ascii.eqb z "0" && Ascii.eqb (lower x) "x"
        | _ => false
        end in
      let digits := if hex then substring 2 (String.length body - 2) body
                    else body in
      let '(m, rest) :=
        read_mantissa hex digits (mkMantissa 0 0 false false false) in
      if negb (sawdigits m) then None
      else
        let finish (e : Z) (us : bool) (rest : string) :=
          match rest with
          | "" =>
              if us && negb (underscoreOK s) then None
              else if hex
                   then Some (f64_of_binary neg (mant m) (e - 4 * frac m))
                   else Some (f64_of_decimal neg (mant m) (e - frac m))
          | _ => None
          end in
        match rest with
        | String c rest' =>
            if Ascii.eqb (lower c) (if hex then "p" else "e") then
              let esign := match rest' with
                           | String "-" _ => (-1)%Z
                           | _ => 1%Z
                           end in
              let ds := match rest' with
                        | String "+" r | String "-" r => r
                        | _ => rest'
                        end in
              match ds with
              | String d _ =>
                  if is_digit d then
                    let '(e, us, rest'') :=
                      read_exponent ds 0 (underscores m) in
                    finish (e * esign)%Z us rest''
                  else None
              | "" => None
              end
            else None
        | "" => if hex then None else finish 0%Z (underscores m) ""
        end
  end.

(** [strconv.ParseFloat(s, 64)]: the nearest [float64] to the number
    [s] denotes; the value is 0 with [ErrSyntax] when [s] is not
    well-formed, and an infinity with [ErrRange] when the number is
    too large. *)
Definition ParseFloat (s : string) : float64 * option error :=
  match special s with
  | Some (f, n) =>
      if (n =? String.length s)%nat then (f, None)
      else (f64_zero, Some ErrSyntax)
  | None =>
      match readFloat s with
      | Some (S754_infinity neg) => (S754_infinity neg, Some ErrRange)
      | Some f => (f, None)
      | None => (f64_zero, Some ErrSyntax)
      end
  end.

(** Decimal digits of a natural number. *)
Definition utoa (n : N) : string := NilZero.string_of_uint (N.to_uint n).

(** [m * 2^e * 10^6], rounded to the nearest integer, ties to even. *)
Definition scale_micro (m : positive) (e : Z) : N :=
  match e with
  | Zneg k =>
      let den := (2 ^ Npos k)%N in
      let num := (Npos m * 1000000)%N in
      let q := (num / den)%N in
      let r := (num mod den)%N in
      match (2 * r ?= den)%N with
      | Lt => q
      | Gt => (q + 1)%N
      | Eq => if N.even q then q else (q + 1)%N
      end
  | _ => (Npos m * 2 ^ Z.to_N e * 1000000)%N
  end.

(** [strconv.FormatFloat(f, 'f', 6, 64)]. *)
Definition FormatFloat_f6 (f : float64) : string :=
  let sign (neg : bool) := if neg then "-" else "" in
  match f with
  | S754_nan => "NaN"
  | S754_infinity neg => (if neg then "-" else "+") ++ "Inf"
  | S754_zero neg => sign neg ++ "0.000000"
  | S754_finite neg m e =>
      let n := scale_micro m e in
      sign neg ++ utoa (n / 1000000) ++ "."
        ++ substring 1 6 (utoa (1000000 + n mod 1000000))
  end.

End strconv.

(* ===================================================================== *)
(** ** The parser and evaluator

    The state of a [*Parser] method is the parser it is called on and
    what the process has written to its standard output so far: one
    entry per call of a print routine. *)
(* ===================================================================== *)

(** [type Parser struct], lines 99-103. *)
Record Parser : Type := mkParser {
  p_tokens : list Token;
  p_current : Token;
  p_pos : nat
}.

Record world : Type := mkWorld {
  w_parser : Parser;
  w_stdout : list string
}.

(** Lines 105-112. *)
Definition NewParser (tokens : list Token) : Parser :=
  mkParser tokens Token_zero 0.

(** The line feed that ends every line the parser prints. *)
Definition LF : string := String (ascii_of_N 10) "".

(** [fmt.Print*]: one more write to the standard output. *)
Definition Print (text : string) : M world unit :=
  modify (fun w => mkWorld (w_parser w) (w_stdout w ++ [text])).

(** [p.current] *)
Definition current : M world Token := gets (fun w => p_current (w_parser w)).

(** What [advance] does to the parser, lines 121-128. *)
Definition Parser_advance (p : Parser) : Parser :=
  if (p_pos p <? List.length (p_tokens p))%nat
  then mkParser (p_tokens p) (nth (p_pos p) (p_tokens p) Token_zero) (S (p_pos p))
  else mkParser (p_tokens p) (mkToken TokenInvalid "") (p_pos p).

Definition advance : M world unit :=
  modify (fun w => mkWorld (Parser_advance (w_parser w)) (w_stdout w)).

(** Lines 202-204. *)
Definition error (message : string) : M world unit :=
  Print ("Parse error: " ++ message ++ LF).

(** Lines 186-200. *)
Definition factor : M world float64 :=
  cur <- current ;;
  if TokenKind_eqb (Kind cur) TokenNumber then
    cur <- current ;;
    let '(result, _) := strconv.ParseFloat (Value cur) in
    advance ;;
    ret result
  else
    cur <- current ;;
    if TokenKind_eqb (Kind cur) TokenIdentifier then
      error "Variable not supported" ;;
      ret f64_zero
    else
      error "Invalid expression" ;;
      ret f64_zero.

(** The guard of the two operator loops, lines 153 and 171: an Operator
    token whose text is [a] or [b]. *)
Definition operator_is (a b : string) : M world bool :=
  cur <- current ;;
  if TokenKind_eqb (Kind cur) TokenOperator then
    cur <- current ;;
    if String.eqb (Value cur) a then ret true
    else cur <- current ;; ret (String.eqb (Value cur) b)
  else ret false.

(** The body of the loop of [term], lines 172-180. *)
Definition term_body (result : float64) : M world float64 :=
  cur <- current ;;
  let operator := Value cur in
  advance ;;
  f <- factor ;;
  ret (if String.eqb operator "*" then f64_mul result f
       else if String.eqb operator "/" then f64_div result f
       else result).

(** Lines 168-184. *)
Definition term (fuel : nat) : M world float64 :=
  result <- factor ;;
  while (fun _ => operator_is "*" "/") term_body fuel result.

(** The body of the loop of [expression], lines 154-162. *)
Definition expression_body (fuel : nat) (result : float64) : M world float64 :=
  cur <- current ;;
  let operator := Value cur in
  advance ;;
  t <- term fuel ;;
  ret (if String.eqb operator "+" then f64_add result t
       else if String.eqb operator "-" then f64_sub result t
       else result).

(** Lines 150-166. *)
Definition expression (fuel : nat) : M world float64 :=
  result <- term fuel ;;
  while (fun _ => operator_is "+" "-") (expression_body fuel) fuel result.

(** Lines 138-148. *)
Definition assignmentStatement (fuel : nat) : M world unit :=
  cur <- current ;;
  let identifier := Value cur in
  advance ;;
  cur <- current ;;
  if negb (String.eqb (Value cur) "=") then
    error "Expected '='"
  else
    advance ;;
    value <- expression fuel ;;
    Print ("Assign " ++ identifier ++ " = " ++ strconv.FormatFloat_f6 value ++ LF).

(** Lines 130-136. *)
Definition statement (fuel : nat) : M world unit :=
  cur <- current ;;
  if TokenKind_eqb (Kind cur) TokenIdentifier then assignmentStatement fuel
  else error "Unexpected token".

(** The guard of the loop of [Parse], line 116. *)
Definition more_tokens : M world bool :=
  cur <- current ;; ret (negb (TokenKind_eqb (Kind cur) TokenInvalid)).

(** Lines 114-119. *)
Definition Parse (fuel : nat) : M world unit :=
  advance ;;
  while (fun _ => more_tokens) (fun _ => statement fuel) fuel tt.

(** [main], lines 206-216, from the line [code] that [ReadString]
    returned.  [fuel]
    bounds the turns of every loop; a budget that ends inside [Lex]
    ends the run before there is a parser. *)
Definition main (fuel : nat) (code : string) : outcome world unit :=
  let prompted := mkWorld (NewParser []) ["Enter code: "] in
  match Lex fuel (NewLexer code) with
  | Done tokens _ =>
      Parse fuel (mkWorld (NewParser tokens) (w_stdout prompted))
  | Panic => Panic
  | StillRunning _ => StillRunning prompted
  end.

(* ===================================================================== *)
(** ** Vocabulary of the properties *)
(* ===================================================================== *)

(** Every byte of [s] satisfies [f]. *)
Fixpoint all_bytes (f : ascii -> bool) (s : string) : bool :=
  match s with
  | "" => true
  | String c s' => f c && all_bytes f s'
  end.

(** The bytes a number, resp. an identifier, is continued with. *)
Definition numchar (c : ascii) : bool :=
  IsDigit (rune_of_byte c) || Ascii.eqb c ".".

Definition identchar (c : ascii) : bool :=
  IsLetter (rune_of_byte c) || IsDigit (rune_of_byte c) || Ascii.eqb c "_".

(** The lexer [l] moved to offset [e], resp. moved there with one more
    token. *)
Definition set_pos (l : Lexer) (e : nat) : Lexer :=
  mkLexer (l_input l) e (l_tokens l) (l_current l).

Definition push (l : Lexer) (e : nat) (t : Token) : Lexer :=
  mkLexer (l_input l) e (l_tokens l ++ [t]) (l_current l).

(** A token read by a scanning loop that starts on a byte its guard
    accepts: it spans [l.pos .. e], a non-empty maximal stretch. *)
Definition stretch (f : ascii -> bool) (input : string) (p e : nat) : Prop :=
  p < e <= String.length input
  /\ (forall k c, p <= k < e -> String.get k input = Some c -> f c = true)
  /\ (forall c, String.get e input = Some c -> f c = false).

(** A byte that starts no token and is not white space: [readSymbol]
    takes its [default] branch on it. *)
Definition unrecognised (c : ascii) : bool :=
  negb (IsSpace (rune_of_byte c)) && negb (IsDigit (rune_of_byte c))
  && negb (IsLetter (rune_of_byte c)) && negb (is_symbol c).

(** The bytes [Lex] passes over without putting them in a token. *)
Definition skipped (c : ascii) : bool :=
  IsSpace (rune_of_byte c) || unrecognised c.

(** The kinds the scanner gives its tokens. *)
Definition scanner_kind (k : TokenKind) : bool :=
  match k with
  | TokenNumber | TokenIdentifier | TokenPunctuation => true
  | _ => false
  end.

(** The UTF-8 encoding of a code point (of the replacement character
    U+FFFD for a surrogate or a value past U+10FFFF). *)
Definition utf8_encode (r : N) : string :=
  let b (n : N) := ascii_of_N n in
  let cont (n : N) := b (N.lor 128 (N.land n 63)) in
  let three (r : N) :=
    String (b (N.lor 224 (N.shiftr r 12)))
      (String (cont (N.shiftr r 6)) (String (cont r) "")) in
  if (r <=? 127)%N then String (b r) ""
  else if (r <=? 2047)%N then
    String (b (N.lor 192 (N.shiftr r 6))) (String (cont r) "")
  else if (r <=? 65535)%N then
    (if between 55296 57343 r then three 65533%N else three r)
  else if (r <=? 1114111)%N then
    String (b (N.lor 240 (N.shiftr r 18)))
      (String (cont (N.shiftr r 12))
         (String (cont (N.shiftr r 6)) (String (cont r) "")))
  else three 65533%N.

(** The half-open stretch of offsets [lo, hi) a token was read from. *)
Definition span : Type := (nat * nat)%type.

Definition token_at (input : string) (t : Token) (sp : span) : Prop :=
  fst sp < snd sp <= String.length input
  /\ Value t = substring (fst sp) (snd sp - fst sp) input.

Definition covers (sp : span) (k : nat) : Prop := fst sp <= k < snd sp.

(** Each span ends before any later one starts. *)
Definition in_order (spans : list span) : Prop :=
  forall i j a b, i < j ->
                  nth_error spans i = Some a -> nth_error spans j = Some b ->
                  snd a <= fst b.

Definition no_space (s : string) : bool :=
  all_bytes (fun c => negb (IsSpace (rune_of_byte c))) s.

(** The tokens [toks] are slices of the text below offset [p], in order,
    and every byte below [p] outside them was skipped. *)
Definition tiled (input : string) (p : nat) (toks : list Token) : Prop :=
  exists spans : list span,
    Forall2 (token_at input) toks spans
    /\ in_order spans
    /\ Forall (fun sp => snd sp <= p) spans
    /\ (forall k c, k < p -> String.get k input = Some c ->
                    (forall sp, In sp spans -> ~ covers sp k) ->
                    skipped c = true)
    /\ Forall (fun t => no_space (Value t) = true) toks.

(** The alphabet of the property: white space, digits, letters, the
    underscore and the ten symbols. *)
Definition allowed (c : ascii) : bool :=
  IsSpace (rune_of_byte c) || IsDigit (rune_of_byte c)
  || IsLetter (rune_of_byte c) || Ascii.eqb c "_" || is_symbol c.

(** The text without its white space. *)
Fixpoint strip_space (s : string) : string :=
  match s with
  | "" => ""
  | String c s' =>
      if IsSpace (rune_of_byte c) then strip_space s'
      else String c (strip_space s')
  end.

(** The texts of the tokens, one after the other. *)
Definition texts (toks : list Token) : string :=
  fold_right (fun t acc => Value t ++ acc) "" toks.

(** [tokenize] returns tokens whose texts make up the text without its
    white space. *)
Definition reconstructs (input : string) : Prop :=
  exists toks l', tokenize input = Done toks l'
                  /\ texts toks = strip_space input.

(** Reading a text from left to right: whether the byte just read
    belongs to a word that a letter started and letters, digits and
    underscores continued. *)
Definition word_next (inside : bool) (c : ascii) : bool :=
  IsLetter (rune_of_byte c) || (inside && identchar c).

Fixpoint word_after (inside : bool) (s : string) : bool :=
  match s with
  | "" => inside
  | String c s' => word_after (word_next inside c) s'
  end.

(** Every underscore of the text continues such a word. *)
Fixpoint underscores_in_words (inside : bool) (s : string) : bool :=
  match s with
  | "" => true
  | String c s' =>
      (negb (Ascii.eqb c "_") || inside)
      && underscores_in_words (word_next inside c) s'
  end.

(** How many underscores of the text continue no such word. *)
Fixpoint stray (inside : bool) (s : string) : nat :=
  match s with
  | "" => 0
  | String c s' =>
      (if Ascii.eqb c "_" && negb inside then 1 else 0)
      + stray (word_next inside c) s'
  end.

(** Whether the text read up to offset [p] ends inside a word. *)
Definition inside_word (input : string) (p : nat) : bool :=
  word_after false (substring 0 p input).

(** What [Lex] keeps true when the text is over the alphabet and its
    underscores continue words: the texts emitted so far are the text
    read so far without its white space, and a word that reaches the
    offset ends there. *)
Definition rebuilt (input : string) (p : nat) (toks : list Token) : Prop :=
  texts toks = strip_space (substring 0 p input)
  /\ (inside_word input p = true ->
      forall c, String.get p input = Some c -> identchar c = false).

(** The same with a count: the bytes of the texts emitted so far and the
    stray underscores read so far are the bytes read so far that are not
    white space. *)
Definition counted (input : string) (p : nat) (toks : list Token) : Prop :=
  String.length (texts toks) + stray false (substring 0 p input)
  = String.length (strip_space (substring 0 p input))
  /\ (inside_word input p = true ->
      forall c, String.get p input = Some c -> identchar c = false).

(** The world after one more line on the standard output. *)
Definition told (w : world) (text : string) : world :=
  mkWorld (w_parser w) (w_stdout w ++ [text]).

(** The world after [p.advance()]. *)
Definition advanced (w : world) : world :=
  mkWorld (Parser_advance (w_parser w)) (w_stdout w).

Definition unexpected_token : string := "Parse error: Unexpected token" ++ LF.

(** The top of the statement loop of [Parse] (line 116), [k] turns
    after the loop was entered in the world [w]: each of these turns
    found the guard true and ran a statement that returned.  [None]
    when the loop ended, or a statement did not return, before that. *)
Fixpoint loop_top (fuel k : nat) (w : world) : option world :=
  match k with
  | O => Some w
  | S k' =>
      match more_tokens w with
      | Done true w1 =>
          match statement fuel w1 with
          | Done _ w2 => loop_top fuel k' w2
          | _ => None
          end
      | _ => None
      end
  end.

(** Neither the current token nor any token of the sequence is an
    Operator. *)
Definition no_operator (p : Parser) : bool :=
  negb (TokenKind_eqb (Kind (p_current p)) TokenOperator)
  && forallb (fun t => negb (TokenKind_eqb (Kind t) TokenOperator)) (p_tokens p).

(** A text [ParseFloat] accepts as a number (it may be out of range). *)
Definition well_formed (s : string) : bool :=
  match snd (strconv.ParseFloat s) with
  | Some strconv.ErrSyntax => false
  | _ => true
  end.

Definition prompt : string := "Enter code: ".

(** A line of the form "Assign ...". *)
Definition assign_line (line : string) : bool := String.prefix "Assign" line.

Definition tokens_z_eq_w : list Token :=
  [mkToken TokenIdentifier "z"; mkToken TokenPunctuation "=";
   mkToken TokenIdentifier "w"].

Definition tokens_x_eq_sum : list Token :=
  [mkToken TokenIdentifier "x"; mkToken TokenPunctuation "=";
   mkToken TokenNumber "3"; mkToken TokenPunctuation "+";
   mkToken TokenNumber "4"; mkToken TokenPunctuation "*";
   mkToken TokenNumber "2"].

Definition tokens_5_eq_3 : list Token :=
  [mkToken TokenNumber "5"; mkToken TokenPunctuation "=";
   mkToken TokenNumber "3"].

(** The [float64] 3. *)
Definition f64_three : float64 := S754_finite false 6755399441055744 (-51).

(* ===================================================================== *)
(** ** Vocabulary of the further properties of the scanner *)
(* ===================================================================== *)

(** The first byte of [s] satisfies [f]. *)
Definition first_byte (f : ascii -> bool) (s : string) : bool :=
  match s with
  | String c _ => f c
  | "" => false
  end.

(** The lexical form of a token of each kind the scanner emits: a
    Number is a digit followed by digits and points, an Identifier a
    letter followed by letters, digits and underscores, a Punctuation
    one of the ten symbols. *)
Definition shape_ok (t : Token) : bool :=
  match Kind t with
  | TokenNumber =>
      first_byte (fun c => IsDigit (rune_of_byte c)) (Value t)
      && all_bytes numchar (Value t)
  | TokenIdentifier =>
      first_byte (fun c => IsLetter (rune_of_byte c)) (Value t)
      && all_bytes identchar (Value t)
  | TokenPunctuation =>
      match Value t with
      | String c "" => is_symbol c
      | _ => false
      end
  | _ => false
  end.



(** The state of a scanner that reads the text once, from left to
    right: between tokens, or inside a number or an identifier whose
    text so far it carries along. *)
Inductive mode : Type := Between | InNumber | InIdentifier.

Definition continues (m : mode) (c : ascii) : bool :=
  match m with
  | Between => false
  | InNumber => numchar c
  | InIdentifier => identchar c
  end.

(** The token that ends when the scanner leaves the mode [m]. *)
Definition flush (m : mode) (acc : string) : list Token :=
  match m with
  | Between => []
  | InNumber => [mkToken TokenNumber acc]
  | InIdentifier => [mkToken TokenIdentifier acc]
  end.

(** The tokens of [s] read in one pass, started in mode [m] with the
    text [acc]. *)
Fixpoint scan (m : mode) (acc : string) (s : string) : list Token :=
  match s with
  | "" => flush m acc
  | String c s' =>
      if continues m c then scan m (acc ++ String c "") s'
      else
        (flush m acc ++
         (if IsSpace (rune_of_byte c) then scan Between "" s'
          else if IsDigit (rune_of_byte c) then scan InNumber (String c "") s'
          else if IsLetter (rune_of_byte c)
               then scan InIdentifier (String c "") s'
          else if is_symbol c
               then mkToken TokenPunctuation (String c "") :: scan Between "" s'
          else scan Between "" s'))%list
  end.

(** The text from offset [p] on. *)
Definition suffix (input : string) (p : nat) : string :=
  substring p (String.length input - p) input.

(* ===================================================================== *)
(** ** Vocabulary of the further properties of the parser *)
(* ===================================================================== *)

(** The four messages [error] is called with. *)
Definition diagnostics : list string :=
  ["Unexpected token"; "Expected '='"; "Variable not supported";
   "Invalid expression"].

(** The lines the parser prints: a diagnostic or a binding. *)
Definition parser_line (line : string) : Prop :=
  (exists m, In m diagnostics /\ line = "Parse error: " ++ m ++ LF)
  \/ (exists identifier value,
         line = "Assign " ++ identifier ++ " = "
                ++ strconv.FormatFloat_f6 value ++ LF).

(** What a parser method may do to the world: move the cursor forward
    by calls of [advance] (the tokens stay, the offset does not go back)
    and print more lines. *)
Definition evolves (w w' : world) : Prop :=
  (exists k, w_parser w' = Nat.iter k Parser_advance (w_parser w))
  /\ (exists new, w_stdout w' = (w_stdout w ++ new)%list
                  /\ Forall parser_line new).

(** The method [c] does not panic, and where it returns or is still
    running, the world has evolved. *)
Definition sound {A : Type} (c : M world A) : Prop :=
  forall w, match c w with
            | Done _ w' | StillRunning w' => evolves w w'
            | Panic => False
            end.

(** The tokens not yet behind the cursor, the current one counted unless
    it is an Invalid token: what the loops of the parser use up. *)
Definition remaining (p : Parser) : nat :=
  (List.length (p_tokens p) - p_pos p)
  + (if TokenKind_eqb (Kind (p_current p)) TokenInvalid then 0 else 1).

(** The parser [p] has the tokens [l] before it: the current one is the
    first, and each call of [advance] brings the next. *)
Fixpoint sees (p : Parser) (l : list Token) : Prop :=
  match l with
  | [] => True
  | t :: l' => p_current p = t /\ sees (Parser_advance p) l'
  end.

(** The value [factor] gives a Number token of text [n]. *)
Definition number_value (n : string) : float64 := fst (strconv.ParseFloat n).

(** Arithmetic as the grammar of the parser has it: a term is a number
    followed by multiplications and divisions by numbers, an expression
    a term followed by additions and subtractions of terms.  Numbers are
    given by their texts. *)
Inductive mulop : Type := Times | Over.
Inductive addop : Type := Plus | Minus.

Definition term_ast : Type := (string * list (mulop * string))%type.
Definition expr_ast : Type := (term_ast * list (addop * term_ast))%type.

Definition mulop_text (op : mulop) : string :=
  match op with Times => "*" | Over => "/" end.

Definition addop_text (op : addop) : string :=
  match op with Plus => "+" | Minus => "-" end.

(** The tokens of a term and of an expression, the operators being of
    kind Operator. *)
Definition factors_tokens (fs : list (mulop * string)) : list Token :=
  flat_map (fun f => [mkToken TokenOperator (mulop_text (fst f));
                      mkToken TokenNumber (snd f)]) fs.

Definition term_tokens (t : term_ast) : list Token :=
  mkToken TokenNumber (fst t) :: factors_tokens (snd t).

Definition terms_tokens (ts : list (addop * term_ast)) : list Token :=
  flat_map (fun t => mkToken TokenOperator (addop_text (fst t))
                     :: term_tokens (snd t)) ts.

Definition expr_tokens (e : expr_ast) : list Token :=
  (term_tokens (fst e) ++ terms_tokens (snd e))%list.

(** Their values, computed from left to right. *)
Definition apply_mulop (acc : float64) (f : mulop * string) : float64 :=
  match fst f with
  | Times => f64_mul acc (number_value (snd f))
  | Over => f64_div acc (number_value (snd f))
  end.

Definition term_value (t : term_ast) : float64 :=
  fold_left apply_mulop (snd t) (number_value (fst t)).

Definition apply_addop (acc : float64) (t : addop * term_ast) : float64 :=
  match fst t with
  | Plus => f64_add acc (term_value (snd t))
  | Minus => f64_sub acc (term_value (snd t))
  end.

Definition expr_value (e : expr_ast) : float64 :=
  fold_left apply_addop (snd e) (term_value (fst e)).

(** An Operator token whose text is one of the four operator signs. *)
Definition arith_operator (t : Token) : bool :=
  TokenKind_eqb (Kind t) TokenOperator
  && existsb (String.eqb (Value t)) ["+"; "-"; "*"; "/"].

Definition mul_operator (t : Token) : bool :=
  TokenKind_eqb (Kind t) TokenOperator
  && existsb (String.eqb (Value t)) ["*"; "/"].

(** A program: assignments of expressions to identifiers, one after the
    other; its tokens ("=" being a Punctuation, as the scanner has it)
    and the lines it makes the parser print. *)
Definition program : Type := list (string * expr_ast).

Definition assignment_tokens (a : string * expr_ast) : list Token :=
  mkToken TokenIdentifier (fst a) :: mkToken TokenPunctuation "="
  :: expr_tokens (snd a).

Definition program_tokens (prog : program) : list Token :=
  flat_map assignment_tokens prog.

Definition assignment_line (a : string * expr_ast) : string :=
  "Assign " ++ fst a ++ " = "
  ++ strconv.FormatFloat_f6 (expr_value (snd a)) ++ LF.

(** A line of assignments of numbers, as one types it: each is an
    identifier, " = ", a number and a space. *)
Fixpoint source_of (l : list (string * string)) : string :=
  match l with
  | [] => ""
  | a :: l' => fst a ++ " = " ++ snd a ++ " " ++ source_of l'
  end.

(** The same as a program: every expression is one number. *)
Definition numbers_program (l : list (string * string)) : program :=
  map (fun a => (fst a, ((snd a, []), []))) l.

(** The identifier and the number of each assignment have the lexical
    form of their kind. *)
Definition well_typed_line (l : list (string * string)) : bool :=
  forallb (fun a => shape_ok (mkToken TokenIdentifier (fst a))
                    && shape_ok (mkToken TokenNumber (snd a))) l.

(** The diagnostic [factor] prints on a token that is no Number. *)
Definition factor_diagnostic (t : Token) : string :=
  match Kind t with
  | TokenIdentifier => "Parse error: Variable not supported" ++ LF
  | _ => "Parse error: Invalid expression" ++ LF
  end.

(* ===================================================================== *)
(** ** Rules for loops *)
(* ===================================================================== *)

Section WhileRules.

Context {St A : Type}.
Variable cond : A -> M St bool.
Variable body : A -> M St A.

Lemma while_exit (fuel : nat) (a : A) (s s1 : St) :
  cond a s = Done false s1 -> while cond body fuel a s = Done a s1.
Proof. intros H. destruct fuel; simpl; rewrite H; reflexivity. Qed.

Lemma while_turn (fuel : nat) (a a' : A) (s s1 s2 : St) :
  cond a s = Done true s1 -> body a s1 = Done a' s2 ->
  while cond body (S fuel) a s = while cond body fuel a' s2.
Proof. intros Hc Hb. simpl. rewrite Hc, Hb. reflexivity. Qed.

(** Total correctness: an invariant [I] that the body keeps and a
    variant [mu] that it decreases; the guard only reads the state. *)
Variable I : A -> St -> Prop.
Variable mu : A -> St -> nat.
Hypothesis cond_reads : forall a s, I a s -> exists b, cond a s = Done b s.
Hypothesis body_keeps : forall a s,
    I a s -> cond a s = Done true s ->
    exists a' s', body a s = Done a' s' /\ I a' s' /\ mu a' s' < mu a s.

Lemma while_total (fuel : nat) :
  forall a s, I a s -> mu a s <= fuel ->
  exists a' s', while cond body fuel a s = Done a' s'
                /\ I a' s' /\ cond a' s' = Done false s'.
Proof.
  induction fuel as [|fuel IH]; intros a s HI Hmu.
  - destruct (cond_reads HI) as [[|] Hc].
    + destruct (body_keeps HI Hc) as (a' & s' & _ & _ & Hlt). lia.
    + exists a, s. rewrite (while_exit 0 Hc). auto.
  - destruct (cond_reads HI) as [[|] Hc].
    + destruct (body_keeps HI Hc) as (a' & s' & Hb & HI' & Hlt).
      rewrite (while_turn fuel Hc Hb). apply IH; [assumption | lia].
    + exists a, s. rewrite (while_exit (S fuel) Hc). auto.
Qed.

End WhileRules.

(* ===================================================================== *)
(** ** Facts about byte strings *)
(* ===================================================================== *)

Section Strings.

Lemma get_None_iff (s : string) : forall k,
    String.get k s = None <-> String.length s <= k.
Proof.
  induction s as [|c s IH]; intros [|k]; simpl; split; intros H;
    try reflexivity; try discriminate; try lia.
  - apply IH in H. lia.
  - apply IH. lia.
Qed.

Lemma get_Some_lt (s : string) (k : nat) (c : ascii) :
  String.get k s = Some c -> k < String.length s.
Proof.
  intros H. destruct (Nat.lt_ge_cases k (String.length s)) as [|Hge]; auto.
  apply get_None_iff in Hge. congruence.
Qed.

Lemma append_assoc (a b c : string) : (a ++ b) ++ c = a ++ (b ++ c).
Proof. induction a as [|x a IH]; simpl; [reflexivity | now rewrite IH]. Qed.

Lemma append_nil_r (a : string) : a ++ "" = a.
Proof. induction a as [|x a IH]; simpl; [reflexivity | now rewrite IH]. Qed.

Lemma substring_nil (s : string) : forall lo, substring lo 0 s = "".
Proof. induction s as [|c s IH]; intros [|lo]; simpl; auto. Qed.

Lemma substring_length (s : string) : forall lo n,
    lo + n <= String.length s -> String.length (substring lo n s) = n.
Proof.
  induction s as [|c s IH]; intros [|lo] [|n]; simpl; intros H;
    try reflexivity; try lia.
  - rewrite IH; [reflexivity | lia].
  - apply (IH lo 0). lia.
  - apply (IH lo (S n)). lia.
Qed.

Lemma substring_app (s : string) : forall lo n m,
    substring lo (n + m) s = substring lo n s ++ substring (lo + n) m s.
Proof.
  induction s as [|c s IH]; intros lo n m.
  - destruct lo, n, m; reflexivity.
  - destruct lo as [|lo].
    + destruct n as [|n]; simpl.
      * reflexivity.
      * rewrite (IH 0 n m). reflexivity.
    + simpl. apply IH.
Qed.

Lemma substring_one (s : string) : forall k c,
    String.get k s = Some c -> substring k 1 s = String c "".
Proof.
  induction s as [|x s IH]; intros [|k] c; simpl; intros H;
    try discriminate.
  - injection H as ->. now rewrite substring_nil.
  - now apply IH.
Qed.

Lemma substring_all (s : string) : substring 0 (String.length s) s = s.
Proof. induction s as [|c s IH]; simpl; [reflexivity | now rewrite IH]. Qed.

Lemma all_bytes_get (f : ascii -> bool) (s : string) :
  all_bytes f s = true <->
  (forall k c, String.get k s = Some c -> f c = true).
Proof.
  induction s as [|x s IH]; simpl.
  - split; [intros _ k c; destruct k; discriminate | reflexivity].
  - rewrite andb_true_iff, IH. split.
    + intros [Hx Hs] [|k] c H; [now injection H as <- | eauto].
    + intros H. split; [apply (H 0); reflexivity|].
      intros k c Hk. apply (H (S k)). exact Hk.
Qed.

Lemma all_bytes_substring (f : ascii -> bool) (s : string) (lo n : nat) :
  (forall k c, lo <= k < lo + n -> String.get k s = Some c -> f c = true) ->
  all_bytes f (substring lo n s) = true.
Proof.
  intros H. apply all_bytes_get. intros k c Hk.
  destruct (Nat.lt_ge_cases k n) as [Hlt|Hge].
  - rewrite substring_correct1 in Hk by assumption.
    apply (H (k + lo)); [lia | assumption].
  - rewrite substring_correct2 in Hk by assumption. discriminate.
Qed.

End Strings.

(* ===================================================================== *)
(** ** What one call of each scanner method does *)
(* ===================================================================== *)

Section LexerSteps.

Lemma cur_byte_at (l : Lexer) (c : ascii) :
  String.get (l_pos l) (l_input l) = Some c -> cur_byte l = Done c l.
Proof. intros H. unfold cur_byte, bind, get, byte_at. now rewrite H. Qed.

Lemma in_input_get (l : Lexer) :
  in_input l
  = Done (match String.get (l_pos l) (l_input l) with
          | Some _ => true
          | None => false
          end) l.
Proof.
  unfold in_input, gets. f_equal.
  destruct (String.get (l_pos l) (l_input l)) eqn:E.
  - apply Nat.ltb_lt. eapply get_Some_lt; eassumption.
  - apply Nat.ltb_ge. now apply get_None_iff.
Qed.

Lemma readNumber_cond_spec (l : Lexer) :
  readNumber_cond l
  = Done (match String.get (l_pos l) (l_input l) with
          | Some c => numchar c
          | None => false
          end) l.
Proof.
  unfold readNumber_cond, bind. rewrite in_input_get.
  destruct (String.get (l_pos l) (l_input l)) as [c|] eqn:E; [|reflexivity].
  rewrite (cur_byte_at l E). unfold numchar.
  destruct (IsDigit (rune_of_byte c)); [reflexivity|].
  now rewrite (cur_byte_at l E).
Qed.

Lemma readIdentifier_cond_spec (l : Lexer) :
  readIdentifier_cond l
  = Done (match String.get (l_pos l) (l_input l) with
          | Some c => identchar c
          | None => false
          end) l.
Proof.
  unfold readIdentifier_cond, bind. rewrite in_input_get.
  destruct (String.get (l_pos l) (l_input l)) as [c|] eqn:E; [|reflexivity].
  rewrite (cur_byte_at l E). unfold identchar.
  destruct (IsLetter (rune_of_byte c)); [reflexivity|].
  rewrite (cur_byte_at l E).
  destruct (IsDigit (rune_of_byte c)); [reflexivity|].
  now rewrite (cur_byte_at l E).
Qed.

(** The two scanning loops: [l.pos] runs over a maximal stretch of
    bytes that satisfy the guard's test [f]. *)
Section Scan.

Variable cond : M Lexer bool.
Variable f : ascii -> bool.
Hypothesis cond_spec : forall l,
    cond l = Done (match String.get (l_pos l) (l_input l) with
                   | Some c => f c
                   | None => false
                   end) l.

Lemma scan_run (fuel : nat) (l : Lexer) :
  String.length (l_input l) - l_pos l <= fuel ->
  exists e,
    while (fun _ => cond) (fun _ => pos_incr) fuel tt l = Done tt (set_pos l e)
    /\ l_pos l <= e
    /\ (e <= String.length (l_input l) \/ e = l_pos l)
    /\ (forall k c, l_pos l <= k < e ->
                    String.get k (l_input l) = Some c -> f c = true)
    /\ (forall c, String.get e (l_input l) = Some c -> f c = false).
Proof.
  intros Hfuel.
  pose (I := fun (_ : unit) (l' : Lexer) =>
               l' = set_pos l (l_pos l')
               /\ l_pos l <= l_pos l'
               /\ (l_pos l' <= String.length (l_input l) \/ l_pos l' = l_pos l)
               /\ (forall k c, l_pos l <= k < l_pos l' ->
                               String.get k (l_input l) = Some c -> f c = true)).
  pose (mu := fun (_ : unit) (l' : Lexer) =>
                String.length (l_input l) - l_pos l').
  destruct (@while_total Lexer unit (fun _ => cond) (fun _ => pos_incr) I mu)
    with (fuel := fuel) (a := tt) (s := l)
    as (u & l' & Hrun & (Hl' & Hle & Hin & Hall) & Hexit).
  - intros _ s _. rewrite cond_spec. eauto.
  - intros [] s (Hs & Hle & Hin & Hall) Hc.
    rewrite cond_spec in Hc.
    assert (Hin' : l_input s = l_input l) by (rewrite Hs; reflexivity).
    rewrite Hin' in Hc.
    destruct (String.get (l_pos s) (l_input l)) as [c|] eqn:E;
      [|discriminate].
    assert (Hfc : f c = true) by congruence.
    pose proof (get_Some_lt _ _ E) as Hlt.
    exists tt, (set_pos l (S (l_pos s))). unfold I, mu. simpl.
    repeat split; try lia.
    + unfold pos_incr, modify. rewrite Hs. reflexivity.
    + intros k c' Hk Hget.
      destruct (Nat.eq_dec k (l_pos s)) as [->|Hne].
      * congruence.
      * apply (Hall k); [lia | assumption].
  - unfold I. destruct l; simpl. repeat split; intros; lia.
  - unfold mu. exact Hfuel.
  - exists (l_pos l'). destruct u. rewrite Hrun, <- Hl'.
    repeat split; try assumption.
    intros c E. rewrite cond_spec in Hexit.
    replace (l_input l') with (l_input l) in Hexit
      by (rewrite Hl'; reflexivity).
    rewrite E in Hexit. congruence.
Qed.

End Scan.

Lemma slice_in (s : string) (lo hi : nat) (l : Lexer) :
  lo <= hi <= String.length s ->
  slice s lo hi l = Done (substring lo (hi - lo) s) l.
Proof.
  intros [H1 H2]. unfold slice.
  apply Nat.leb_le in H1, H2. now rewrite H1, H2.
Qed.

Lemma readNumber_run (fuel : nat) (l : Lexer) (c : ascii) :
  String.get (l_pos l) (l_input l) = Some c ->
  IsDigit (rune_of_byte c) = true ->
  String.length (l_input l) - l_pos l <= fuel ->
  exists e,
    readNumber fuel l
    = Done tt (push l e (mkToken TokenNumber
                           (substring (l_pos l) (e - l_pos l) (l_input l))))
    /\ stretch numchar (l_input l) (l_pos l) e.
Proof.
  intros Hc Hd Hfuel.
  destruct (@scan_run readNumber_cond numchar readNumber_cond_spec fuel l Hfuel)
    as (e & Hrun & Hle & Hin & Hall & Hmax).
  assert (Hne : e <> l_pos l).
  { intros ->. specialize (Hmax c Hc). unfold numchar in Hmax.
    rewrite Hd in Hmax. discriminate. }
  exists e. split.
  - unfold readNumber, bind, gets. rewrite Hrun. unfold get. simpl.
    rewrite slice_in by lia. reflexivity.
  - unfold stretch. repeat split; try assumption; lia.
Qed.

Lemma readIdentifier_run (fuel : nat) (l : Lexer) (c : ascii) :
  String.get (l_pos l) (l_input l) = Some c ->
  IsLetter (rune_of_byte c) = true ->
  String.length (l_input l) - l_pos l <= fuel ->
  exists e,
    readIdentifier fuel l
    = Done tt (push l e (mkToken TokenIdentifier
                           (substring (l_pos l) (e - l_pos l) (l_input l))))
    /\ stretch identchar (l_input l) (l_pos l) e.
Proof.
  intros Hc Hd Hfuel.
  destruct (@scan_run readIdentifier_cond identchar readIdentifier_cond_spec fuel l Hfuel)
    as (e & Hrun & Hle & Hin & Hall & Hmax).
  assert (Hne : e <> l_pos l).
  { intros ->. specialize (Hmax c Hc). unfold identchar in Hmax.
    rewrite Hd in Hmax. discriminate. }
  exists e. split.
  - unfold readIdentifier, bind, gets. rewrite Hrun. unfold get. simpl.
    rewrite slice_in by lia. reflexivity.
  - unfold stretch. repeat split; try assumption; lia.
Qed.

Lemma readSymbol_run (l : Lexer) (c : ascii) :
  String.get (l_pos l) (l_input l) = Some c ->
  readSymbol l
  = Done tt (if is_symbol c
             then push l (S (l_pos l)) (mkToken TokenPunctuation (String c ""))
             else set_pos l (S (l_pos l))).
Proof.
  intros Hc. unfold readSymbol, bind, gets. rewrite (cur_byte_at l Hc).
  destruct (is_symbol c); [|reflexivity].
  unfold pos_incr, modify, get. simpl.
  pose proof (get_Some_lt _ _ Hc) as Hlt.
  rewrite slice_in by lia.
  replace (S (l_pos l) - l_pos l) with 1 by lia.
  rewrite (substring_one _ _ Hc). reflexivity.
Qed.

End LexerSteps.

(* ===================================================================== *)
(** ** The classes of bytes *)
(* ===================================================================== *)

(** Settles a statement about one byte by looking at all 256 of them. *)
Ltac by_bytes c :=
  destruct c as [[] [] [] [] [] [] [] []]; vm_compute;
  try reflexivity; try discriminate; intros; try discriminate; try reflexivity;
  try (intuition (discriminate || congruence)).

Section ByteClasses.

Lemma numchar_not_space (c : ascii) :
  numchar c = true -> IsSpace (rune_of_byte c) = false.
Proof. by_bytes c. Qed.

Lemma identchar_not_space (c : ascii) :
  identchar c = true -> IsSpace (rune_of_byte c) = false.
Proof. by_bytes c. Qed.

Lemma numchar_not_letter (c : ascii) :
  numchar c = true -> IsLetter (rune_of_byte c) = false.
Proof. by_bytes c. Qed.

Lemma symbol_not_identchar (c : ascii) :
  is_symbol c = true -> identchar c = false.
Proof. by_bytes c. Qed.

Lemma space_not_identchar (c : ascii) :
  IsSpace (rune_of_byte c) = true -> identchar c = false.
Proof. by_bytes c. Qed.

End ByteClasses.

(* ===================================================================== *)
(** ** The invariant rule of [Lex]

    A property [P] of the offset and the tokens emitted so far that
    holds at the start and is kept by each of the five things one turn
    of the loop can do holds, at the end of the text, of the tokens
    [Lex] returns; and [Lex] does return. *)
(* ===================================================================== *)

Section LexInvariant.

Variable input : string.
Variable P : nat -> list Token -> Prop.

Hypothesis P_space : forall p toks c,
    String.get p input = Some c ->
    IsSpace (rune_of_byte c) = true ->
    P p toks -> P (S p) toks.

Hypothesis P_number : forall p e toks c,
    String.get p input = Some c ->
    IsSpace (rune_of_byte c) = false ->
    IsDigit (rune_of_byte c) = true ->
    stretch numchar input p e ->
    P p toks ->
    P e (toks ++ [mkToken TokenNumber (substring p (e - p) input)]).

Hypothesis P_identifier : forall p e toks c,
    String.get p input = Some c ->
    IsSpace (rune_of_byte c) = false ->
    IsDigit (rune_of_byte c) = false ->
    IsLetter (rune_of_byte c) = true ->
    stretch identchar input p e ->
    P p toks ->
    P e (toks ++ [mkToken TokenIdentifier (substring p (e - p) input)]).

Hypothesis P_symbol : forall p toks c,
    String.get p input = Some c ->
    IsSpace (rune_of_byte c) = false ->
    IsDigit (rune_of_byte c) = false ->
    IsLetter (rune_of_byte c) = false ->
    is_symbol c = true ->
    P p toks ->
    P (S p) (toks ++ [mkToken TokenPunctuation (String c "")]).

Hypothesis P_dropped : forall p toks c,
    String.get p input = Some c ->
    IsSpace (rune_of_byte c) = false ->
    IsDigit (rune_of_byte c) = false ->
    IsLetter (rune_of_byte c) = false ->
    is_symbol c = false ->
    P p toks -> P (S p) toks.

Lemma Lex_body_run (fuel : nat) (l : Lexer) (c : ascii) :
  l_input l = input ->
  String.get (l_pos l) input = Some c ->
  String.length input - l_pos l <= fuel ->
  P (l_pos l) (l_tokens l) ->
  exists l', Lex_body fuel l = Done tt l'
             /\ l_input l' = input
             /\ l_pos l < l_pos l' <= String.length input
             /\ P (l_pos l') (l_tokens l').
Proof.
  intros Hin Hc Hfuel HP.
  pose proof (get_Some_lt _ _ Hc) as Hlt.
  destruct l as [inp pos toks cur]; simpl in *; subst inp.
  set (l := mkLexer input pos toks cur).
  assert (Hc' : String.get (l_pos l) (l_input l) = Some c) by exact Hc.
  unfold Lex_body, bind. rewrite (cur_byte_at l Hc').
  destruct (IsSpace (rune_of_byte c)) eqn:Hsp.
  { eexists. split; [reflexivity|]. simpl. repeat split; eauto; lia. }
  rewrite (cur_byte_at l Hc').
  destruct (IsDigit (rune_of_byte c)) eqn:Hdg.
  { destruct (@readNumber_run fuel l c Hc' Hdg Hfuel) as (e & Hrun & Hst).
    rewrite Hrun. eexists. split; [reflexivity|]. simpl in *.
    pose proof Hst as (Hb & _). repeat split; eauto; try lia. }
  rewrite (cur_byte_at l Hc').
  destruct (IsLetter (rune_of_byte c)) eqn:Hlt'.
  { destruct (@readIdentifier_run fuel l c Hc' Hlt' Hfuel) as (e & Hrun & Hst).
    rewrite Hrun. eexists. split; [reflexivity|]. simpl in *.
    pose proof Hst as (Hb & _). repeat split; eauto; try lia. }
  rewrite (readSymbol_run l Hc').
  destruct (is_symbol c) eqn:Hsy; eexists; (split; [reflexivity|]); simpl;
    repeat split; eauto; lia.
Qed.

Lemma Lex_run (fuel : nat) (l : Lexer) :
  l_input l = input ->
  l_pos l <= String.length input ->
  String.length input - l_pos l <= fuel ->
  P (l_pos l) (l_tokens l) ->
  exists l', Lex fuel l = Done (l_tokens l') l'
             /\ l_input l' = input
             /\ l_pos l' = String.length input
             /\ P (String.length input) (l_tokens l').
Proof.
  intros Hin Hle Hfuel HP.
  pose (I := fun (_ : unit) (l' : Lexer) =>
               l_input l' = input
               /\ l_pos l' <= String.length input
               /\ String.length input - l_pos l' <= fuel
               /\ P (l_pos l') (l_tokens l')).
  pose (mu := fun (_ : unit) (l' : Lexer) => String.length input - l_pos l').
  destruct (@while_total Lexer unit (fun _ => in_input) (fun _ => Lex_body fuel) I mu)
    with (fuel := fuel) (a := tt) (s := l)
    as (u & l' & Hrun & (Hin' & Hle' & _ & HP') & Hexit).
  - intros _ s _. rewrite in_input_get. eauto.
  - intros [] s (Hs & Hles & Hfs & HPs) Hc.
    rewrite in_input_get, Hs in Hc.
    destruct (String.get (l_pos s) input) as [c|] eqn:E;
      [|discriminate].
    destruct (@Lex_body_run fuel s c Hs E Hfs HPs) as (s' & Hb & Hs' & Hp' & HP').
    exists tt, s'. unfold I, mu. repeat split; try assumption; lia.
  - unfold I. auto.
  - exact Hfuel.
  - rewrite in_input_get, Hin' in Hexit.
    destruct (String.get (l_pos l') input) eqn:E; [discriminate|].
    apply get_None_iff in E.
    exists l'. unfold Lex, bind. rewrite Hrun. unfold gets.
    repeat split; try assumption.
    + lia.
    + replace (String.length input) with (l_pos l') by lia. assumption.
Qed.

Hypothesis P_start : P 0 [].

Lemma Lex_invariant (fuel : nat) :
  String.length input <= fuel ->
  exists l', Lex fuel (NewLexer input) = Done (l_tokens l') l'
             /\ P (String.length input) (l_tokens l').
Proof.
  intros Hfuel.
  destruct (@Lex_run fuel (NewLexer input)) as (l' & Hrun & _ & _ & HP);
    simpl; try reflexivity; try lia; try assumption.
  eauto.
Qed.

End LexInvariant.

(* ===================================================================== *)
(** ** A larger budget changes nothing *)
(* ===================================================================== *)

Section Budget.

Lemma while_more_fuel {St A : Type} (cond : A -> M St bool)
      (body1 body2 : A -> M St A) :
  (forall a s a' s', body1 a s = Done a' s' -> body2 a s = Done a' s') ->
  forall fuel fuel' a s a' s',
    fuel <= fuel' ->
    while cond body1 fuel a s = Done a' s' ->
    while cond body2 fuel' a s = Done a' s'.
Proof.
  intros Hbody. induction fuel as [|fuel IH]; intros fuel' a s a' s' Hle Hrun.
  - simpl in Hrun. destruct (cond a s) as [[|] s1| |] eqn:Hc; try discriminate.
    rewrite (while_exit cond body2 fuel' a s Hc). exact Hrun.
  - simpl in Hrun. destruct (cond a s) as [[|] s1| |] eqn:Hc; try discriminate.
    + destruct fuel' as [|fuel']; [lia|].
      destruct (body1 a s1) as [a1 s2| |] eqn:Hb; try discriminate.
      rewrite (while_turn cond body2 fuel' a s Hc (Hbody _ _ _ _ Hb)).
      apply IH; [lia | exact Hrun].
    + rewrite (while_exit cond body2 fuel' a s Hc). exact Hrun.
Qed.

Lemma readNumber_more_fuel (fuel fuel' : nat) (l l' : Lexer) (u : unit) :
  fuel <= fuel' ->
  readNumber fuel l = Done u l' -> readNumber fuel' l = Done u l'.
Proof.
  intros Hle. unfold readNumber, bind, gets.
  destruct (while _ _ fuel tt l) as [[] l1| |] eqn:E; try discriminate.
  rewrite (@while_more_fuel _ _ _ _ (fun _ => pos_incr)
             (fun _ _ _ _ H => H) _ _ _ _ _ _ Hle E).
  auto.
Qed.

Lemma readIdentifier_more_fuel (fuel fuel' : nat) (l l' : Lexer) (u : unit) :
  fuel <= fuel' ->
  readIdentifier fuel l = Done u l' -> readIdentifier fuel' l = Done u l'.
Proof.
  intros Hle. unfold readIdentifier, bind, gets.
  destruct (while _ _ fuel tt l) as [[] l1| |] eqn:E; try discriminate.
  rewrite (@while_more_fuel _ _ _ _ (fun _ => pos_incr)
             (fun _ _ _ _ H => H) _ _ _ _ _ _ Hle E).
  auto.
Qed.

Lemma Lex_body_more_fuel (fuel fuel' : nat) (l l' : Lexer) (u : unit) :
  fuel <= fuel' ->
  Lex_body fuel l = Done u l' -> Lex_body fuel' l = Done u l'.
Proof.
  intros Hle. unfold Lex_body, bind.
  destruct (cur_byte l) as [c l1| |]; try discriminate.
  destruct (IsSpace (rune_of_byte c)); [auto|].
  destruct (cur_byte l1) as [c1 l2| |]; try discriminate.
  destruct (IsDigit (rune_of_byte c1)); [now apply readNumber_more_fuel|].
  destruct (cur_byte l2) as [c2 l3| |]; try discriminate.
  destruct (IsLetter (rune_of_byte c2)); [now apply readIdentifier_more_fuel|].
  auto.
Qed.

Lemma Lex_more_fuel (fuel fuel' : nat) (l l' : Lexer) (toks : list Token) :
  fuel <= fuel' ->
  Lex fuel l = Done toks l' -> Lex fuel' l = Done toks l'.
Proof.
  intros Hle. unfold Lex, bind.
  destruct (while _ _ fuel tt l) as [[] l1| |] eqn:E; try discriminate.
  rewrite (@while_more_fuel _ _ _ (fun _ => Lex_body fuel) (fun _ => Lex_body fuel')
             (fun a s a' s' H => @Lex_body_more_fuel fuel fuel' s s' a' Hle H)
             _ _ _ _ _ _ Hle E).
  auto.
Qed.

(** [tokenize] returns, and [Lex] on any budget that is not below the
    length of the text returns the same. *)
Lemma tokenize_returns (input : string) :
  exists toks l', tokenize input = Done toks l'.
Proof.
  destruct (@Lex_invariant input (fun _ _ => True))
    with (fuel := String.length input) as (l' & Hrun & _); auto.
  unfold tokenize. eauto.
Qed.

Lemma Lex_budget (input : string) (fuel : nat) :
  String.length input <= fuel ->
  Lex fuel (NewLexer input) = tokenize input.
Proof.
  intros Hle. destruct (tokenize_returns input) as (toks & l' & Hrun).
  rewrite Hrun. unfold tokenize in Hrun.
  exact (@Lex_more_fuel _ _ _ _ _ Hle Hrun).
Qed.

End Budget.

(* ===================================================================== *)
(** ** The scanner: totality, examples, kinds *)
(* ===================================================================== *)




(** C9. "12.5" is one Number token, "x_1" one Identifier token, and
    "=+" the two Punctuation tokens "=" and "+". *)
Theorem tokenize_examples :
  returned (tokenize "12.5") = Some [mkToken TokenNumber "12.5"]
  /\ returned (tokenize "x_1") = Some [mkToken TokenIdentifier "x_1"]
  /\ returned (tokenize "=+")
     = Some [mkToken TokenPunctuation "="; mkToken TokenPunctuation "+"].
Proof. repeat split. Qed.

(** C10. The scanner classifies bytes, not decoded code points: on the
    UTF-8 encoding of the letter U+00E9, the two bytes 0xC3 0xA9, it
    emits one Identifier token whose text is the single byte 0xC3, a
    proper prefix of the encoding, and the byte 0xA9 is passed over as
    an unrecognised byte. *)
Theorem tokenize_bytewise :
  let input := utf8_encode 233%N in
  let lead := ascii_of_N 195 in
  let trail := ascii_of_N 169 in
  IsLetter 233%N = true
  /\ input = String lead (String trail "")
  /\ tokenize input
     = Done [mkToken TokenIdentifier (String lead "")]
            (mkLexer input 2 [mkToken TokenIdentifier (String lead "")] Token_zero)
  /\ IsLetter (rune_of_byte lead) = true
  /\ unrecognised trail = true
  /\ String.length (String lead "") < String.length input.
Proof. vm_compute. repeat split; lia. Qed.

Lemma tokens_scanner_kinds (input : string) (toks : list Token) (l' : Lexer) :
  tokenize input = Done toks l' ->
  Forall (fun t => scanner_kind (Kind t) = true) toks.
Proof.
  intros Hrun.
  destruct (@Lex_invariant input
              (fun _ ts => Forall (fun t => scanner_kind (Kind t) = true) ts))
    with (fuel := String.length input) as (l1 & Hrun1 & HP);
    try intros; try (apply Forall_app; split); auto.
  unfold tokenize in Hrun. congruence.
Qed.

(* ===================================================================== *)
(** ** Tokens as slices of the text *)
(* ===================================================================== *)

Section Tiling.

Variable input : string.

Lemma tiled_skip (p : nat) (toks : list Token) (c : ascii) :
  String.get p input = Some c -> skipped c = true ->
  tiled input p toks -> tiled input (S p) toks.
Proof.
  intros Hc Hs (spans & Hat & Hord & Hend & Hgap & Hns).
  exists spans. repeat split; try assumption.
  - eapply Forall_impl; [|exact Hend]. simpl. intros; lia.
  - intros k c' Hk Hget Hun.
    destruct (Nat.eq_dec k p) as [->|Hne]; [congruence|].
    apply (Hgap k); auto. lia.
Qed.

Lemma tiled_token (p e : nat) (toks : list Token) (t : Token) :
  p < e <= String.length input ->
  Value t = substring p (e - p) input ->
  no_space (Value t) = true ->
  tiled input p toks -> tiled input e (toks ++ [t]).
Proof.
  intros Hpe Hval Hsp (spans & Hat & Hord & Hend & Hgap & Hns).
  exists (spans ++ [(p, e)])%list. repeat split.
  - apply Forall2_app; [assumption|].
    constructor; [|constructor]. split; assumption.
  - intros i j a b Hij Ha Hb.
    destruct (Nat.lt_ge_cases j (List.length spans)) as [Hj|Hj].
    + rewrite nth_error_app1 in Ha, Hb by lia. exact (Hord i j a b Hij Ha Hb).
    + rewrite nth_error_app2 in Hb by assumption.
      destruct (j - List.length spans) as [|[|n]] eqn:E; simpl in Hb;
        try discriminate.
      injection Hb as <-. simpl.
      assert (Hi : i < List.length spans) by lia.
      rewrite nth_error_app1 in Ha by assumption.
      apply nth_error_In in Ha.
      rewrite Forall_forall in Hend. now apply Hend.
  - apply Forall_app. split.
    + eapply Forall_impl; [|exact Hend]. simpl. intros; lia.
    + constructor; [simpl; lia | constructor].
  - intros k c Hk Hget Hun.
    destruct (Nat.lt_ge_cases k p) as [Hlt|Hge].
    + apply (Hgap k c Hlt Hget). intros sp Hin.
      apply Hun. apply in_or_app. now left.
    + exfalso. apply (Hun (p, e)).
      * apply in_or_app. right. now left.
      * unfold covers. simpl. lia.
  - apply Forall_app. split; [assumption|]. constructor; [assumption|constructor].
Qed.

Lemma stretch_no_space (f : ascii -> bool) (p e : nat) :
  (forall c, f c = true -> IsSpace (rune_of_byte c) = false) ->
  stretch f input p e ->
  no_space (substring p (e - p) input) = true.
Proof.
  intros Hf (Hpe & Hall & _). apply all_bytes_substring.
  intros k c Hk Hget. apply negb_true_iff, Hf. apply (Hall k); [lia|assumption].
Qed.

Lemma Lex_tiles (toks : list Token) (l' : Lexer) :
  tokenize input = Done toks l' -> tiled input (String.length input) toks.
Proof.
  intros Hrun.
  destruct (@Lex_invariant input (tiled input))
    with (fuel := String.length input) as (l1 & Hrun1 & HP); auto.
  - intros p ts c Hc Hs. apply tiled_skip with c; auto.
    unfold skipped. now rewrite Hs.
  - intros p e ts c Hc _ _ Hst. pose proof Hst as (Hpe & _).
    apply tiled_token; auto.
    apply stretch_no_space with numchar; auto using numchar_not_space.
  - intros p e ts c Hc _ _ _ Hst. pose proof Hst as (Hpe & _).
    apply tiled_token; auto.
    apply stretch_no_space with identchar; auto using identchar_not_space.
  - intros p ts c Hc Hsp _ _ Hsy.
    pose proof (get_Some_lt _ _ Hc) as Hlt.
    apply tiled_token; try assumption; [lia| |].
    + cbn [Value]. replace (S p - p) with 1 by lia.
      symmetry. now apply substring_one.
    + unfold no_space. simpl. now rewrite Hsp.
  - intros p ts c Hc Hsp Hdg Hlt Hsy. apply tiled_skip with c; auto.
    unfold skipped, unrecognised. now rewrite Hsp, Hdg, Hlt, Hsy.
  - exists []. split; [constructor|]. split; [intros i j a b _ Ha; now destruct i|].
    split; [constructor|]. split; [intros k c Hk; lia | constructor].
  - unfold tokenize in Hrun. congruence.
Qed.

Lemma token_at_nonempty (t : Token) (sp : span) :
  token_at input t sp -> Value t <> "".
Proof.
  intros (Hb & Hv) He. rewrite He in Hv.
  assert (Hlen : String.length (substring (fst sp) (snd sp - fst sp) input)
                 = snd sp - fst sp) by (apply substring_length; lia).
  rewrite <- Hv in Hlen. simpl in Hlen. lia.
Qed.

End Tiling.

(** C7. Every token [tokenize] returns has a non-empty text that is a
    slice of the text; the slices of successive tokens come in the order
    of the text and do not overlap; every byte between them (or before
    the first, or after the last) is a skipped byte, white space or
    unrecognised; and no token's text contains white space. *)
Theorem token_spans (input : string) :
  exists (toks : list Token) (l' : Lexer) (spans : list span),
    tokenize input = Done toks l'
    /\ Forall2 (token_at input) toks spans
    /\ in_order spans
    /\ (forall k c, String.get k input = Some c ->
                    (forall sp, In sp spans -> ~ covers sp k) ->
                    skipped c = true)
    /\ Forall (fun t => Value t <> "" /\ no_space (Value t) = true) toks.
Proof.
  destruct (tokenize_returns input) as (toks & l' & Hrun).
  destruct (@Lex_tiles input toks l' Hrun) as (spans & Hat & Hord & Hend & Hgap & Hns).
  exists toks, l', spans. repeat split; try assumption.
  - intros k c Hget. apply Hgap; [|exact Hget].
    eapply get_Some_lt; eassumption.
  - clear - Hat Hns. induction Hat as [|t sp ts sps H _ IH].
    + constructor.
    + inversion Hns; subst. constructor; [|auto].
      split; [eapply token_at_nonempty; eassumption | assumption].
Qed.

Lemma token_spans_witness :
  exists spans : list span,
    Forall2 (token_at "a = 12") [mkToken TokenIdentifier "a";
                                 mkToken TokenPunctuation "=";
                                 mkToken TokenNumber "12"] spans
    /\ in_order spans.
Proof.
  destruct (token_spans "a = 12") as (toks & l' & spans & Hrun & Hat & Hord & _).
  vm_compute in Hrun. injection Hrun as <- _.
  exists spans. split; assumption.
Defined.

(* ===================================================================== *)
(** ** Putting the token texts back together *)
(* ===================================================================== *)

Section Reconstruction.

Lemma texts_snoc (toks : list Token) (t : Token) :
  texts (toks ++ [t]) = texts toks ++ Value t.
Proof.
  unfold texts. induction toks as [|x toks IH]; simpl.
  - apply append_nil_r.
  - rewrite IH. symmetry. apply append_assoc.
Qed.

Lemma strip_space_app (a b : string) :
  strip_space (a ++ b) = strip_space a ++ strip_space b.
Proof.
  induction a as [|c a IH]; simpl; [reflexivity|].
  destruct (IsSpace (rune_of_byte c)); simpl; now rewrite IH.
Qed.

Lemma strip_space_id (s : string) :
  no_space s = true -> strip_space s = s.
Proof.
  unfold no_space. induction s as [|c s IH]; simpl; [reflexivity|].
  rewrite andb_true_iff, negb_true_iff. intros [-> Hs]. now rewrite IH.
Qed.

Lemma word_after_app (b : bool) (s1 s2 : string) :
  word_after b (s1 ++ s2) = word_after (word_after b s1) s2.
Proof. revert b. induction s1 as [|c s1 IH]; intros b; simpl; auto. Qed.

Lemma word_after_no_letter (s : string) :
  all_bytes (fun c => negb (IsLetter (rune_of_byte c))) s = true ->
  word_after false s = false.
Proof.
  induction s as [|c s IH]; simpl; [reflexivity|].
  rewrite andb_true_iff, negb_true_iff. intros [Hc Hs].
  unfold word_next. rewrite Hc. simpl. auto.
Qed.

(** An underscore at offset [p] of a text whose underscores continue
    words is inside a word. *)
Lemma underscore_inside (s : string) : forall b p,
    underscores_in_words b s = true ->
    String.get p s = Some "_"%char ->
    word_after b (substring 0 p s) = true.
Proof.
  induction s as [|c s IH]; intros b p Hu Hget.
  - destruct p; discriminate.
  - simpl in Hu. apply andb_true_iff in Hu. destruct Hu as [Hc Hs].
    destruct p as [|p]; simpl in *.
    + injection Hget as ->. simpl in Hc. exact Hc.
    + eapply IH; eassumption.
Qed.

Variable input : string.

Lemma prefix_step (p : nat) (c : ascii) :
  String.get p input = Some c ->
  substring 0 (S p) input = substring 0 p input ++ String c "".
Proof.
  intros Hc. replace (S p) with (p + 1) by lia.
  rewrite substring_app. simpl. now rewrite (substring_one _ _ Hc).
Qed.

Lemma prefix_stretch (p e : nat) :
  p <= e ->
  substring 0 e input = substring 0 p input ++ substring p (e - p) input.
Proof.
  intros Hle. replace e with (p + (e - p)) at 1 by lia.
  now rewrite substring_app.
Qed.

Lemma inside_step (p : nat) (c : ascii) :
  String.get p input = Some c ->
  inside_word input (S p) = word_next (inside_word input p) c.
Proof.
  intros Hc. unfold inside_word.
  now rewrite (@prefix_step p c Hc), word_after_app.
Qed.

Hypothesis alphabet : all_bytes allowed input = true.
Hypothesis words : underscores_in_words false input = true.

Lemma rebuilt_byte (p : nat) (toks : list Token) (c : ascii) (t : string) :
  String.get p input = Some c ->
  strip_space (String c "") = t ->
  IsLetter (rune_of_byte c) = false ->
  identchar c = false ->
  texts toks = strip_space (substring 0 p input) ->
  texts toks ++ t = strip_space (substring 0 (S p) input)
  /\ (inside_word input (S p) = true ->
      forall c', String.get (S p) input = Some c' -> identchar c' = false).
Proof.
  intros Hc Ht Hl Hi Htx. split.
  - rewrite (@prefix_step p c Hc), strip_space_app, Htx, Ht. reflexivity.
  - rewrite (@inside_step p c Hc). unfold word_next.
    rewrite Hl, Hi, andb_false_r. discriminate.
Qed.

Lemma rebuilt_token (f : ascii -> bool) (p e : nat) (toks : list Token)
      (t : Token) :
  (forall c, f c = true -> IsSpace (rune_of_byte c) = false) ->
  stretch f input p e ->
  Value t = substring p (e - p) input ->
  texts toks = strip_space (substring 0 p input) ->
  texts (toks ++ [t]) = strip_space (substring 0 e input).
Proof.
  intros Hf Hst Hv Htx. pose proof Hst as (Hpe & _).
  rewrite texts_snoc, (@prefix_stretch p e) by lia.
  rewrite strip_space_app, Htx, Hv.
  now rewrite (@strip_space_id _ (@stretch_no_space input f p e Hf Hst)).
Qed.

Lemma Lex_rebuilds (toks : list Token) (l' : Lexer) :
  tokenize input = Done toks l' -> texts toks = strip_space input.
Proof.
  intros Hrun.
  destruct (@Lex_invariant input (rebuilt input))
    with (fuel := String.length input) as (l1 & Hrun1 & HP & _); auto.
  - (* white space *)
    intros p ts c Hc Hsp (Htx & _). unfold rebuilt.
    rewrite <- (append_nil_r (texts ts)).
    apply rebuilt_byte with c; auto.
    + simpl. now rewrite Hsp.
    + pose proof (space_not_identchar c Hsp) as Hi. unfold identchar in Hi.
      now destruct (IsLetter (rune_of_byte c)).
    + now apply space_not_identchar.
  - (* a number *)
    intros p e ts c Hc _ Hdg Hst (Htx & Hw). split.
    + now apply (@rebuilt_token numchar p e ts _ numchar_not_space Hst).
    + assert (Hp : inside_word input p = false).
      { destruct (inside_word input p) eqn:E; [|reflexivity].
        specialize (Hw eq_refl c Hc). unfold identchar in Hw.
        rewrite Hdg, orb_true_r in Hw. discriminate. }
      destruct Hst as (Hpe & Hall & _).
      unfold inside_word in *. rewrite (@prefix_stretch p e) by lia.
      rewrite word_after_app, Hp, word_after_no_letter; [discriminate|].
      apply all_bytes_substring. intros k c' Hk Hget.
      apply negb_true_iff, numchar_not_letter, (Hall k); [lia|assumption].
  - (* an identifier *)
    intros p e ts c Hc _ _ _ Hst (Htx & _). split.
    + now apply (@rebuilt_token identchar p e ts _ identchar_not_space Hst).
    + intros _. apply Hst.
  - (* a symbol *)
    intros p ts c Hc Hsp _ Hlt Hsy (Htx & _). unfold rebuilt.
    rewrite texts_snoc. cbn [Value].
    apply rebuilt_byte with c; auto.
    + simpl. now rewrite Hsp.
    + now apply symbol_not_identchar.
  - (* a byte that is dropped: there is none *)
    intros p ts c Hc Hsp Hdg Hlt Hsy (_ & Hw). exfalso.
    assert (Ha : allowed c = true).
    { revert Hc. apply all_bytes_get. exact alphabet. }
    unfold allowed in Ha. rewrite Hsp, Hdg, Hlt, Hsy in Ha. simpl in Ha.
    rewrite orb_false_r in Ha. apply Ascii.eqb_eq in Ha. subst c.
    specialize (Hw (@underscore_inside input false p words Hc) _ Hc). discriminate.
  - (* at the start *)
    split.
    + now rewrite substring_nil.
    + unfold inside_word. now rewrite substring_nil.
  - unfold tokenize in Hrun. rewrite substring_all in HP. congruence.
Qed.

End Reconstruction.

(** The converse: over the alphabet, an underscore that continues no
    word is dropped, so the texts fall short of the text. *)
Section ReconstructionOnlyIf.

Lemma length_app (a b : string) :
  String.length (a ++ b) = String.length a + String.length b.
Proof. induction a as [|c a IH]; simpl; [reflexivity | now rewrite IH]. Qed.

Lemma stray_app (s1 s2 : string) : forall b,
    stray b (s1 ++ s2) = stray b s1 + stray (word_after b s1) s2.
Proof.
  induction s1 as [|c s1 IH]; intros b; simpl; [reflexivity|].
  rewrite IH. lia.
Qed.

Lemma stray_none (s : string) : forall b,
    stray b s = 0 <-> underscores_in_words b s = true.
Proof.
  induction s as [|c s IH]; intros b; simpl; [tauto|].
  rewrite andb_true_iff, <- IH.
  destruct (Ascii.eqb c "_"), b; simpl;
    (split;
     [ intros H; split; [first [reflexivity | discriminate H] | lia]
     | intros [H1 H2]; first [discriminate H1 | lia] ]).
Qed.

Lemma stray_no_underscore (s : string) : forall b,
    all_bytes (fun c => negb (Ascii.eqb c "_")) s = true -> stray b s = 0.
Proof.
  induction s as [|c s IH]; intros b; simpl; [reflexivity|].
  rewrite andb_true_iff, negb_true_iff. intros [-> Hs]. simpl. now apply IH.
Qed.

Lemma stray_in_word (s : string) :
  all_bytes identchar s = true -> stray true s = 0.
Proof.
  induction s as [|c s IH]; simpl; [reflexivity|].
  rewrite andb_true_iff. intros [Hc Hs]. unfold word_next. simpl.
  rewrite Hc, orb_true_r, andb_false_r. now apply IH.
Qed.

Lemma numchar_not_underscore (c : ascii) :
  numchar c = true -> Ascii.eqb c "_" = false.
Proof. by_bytes c. Qed.

Lemma letter_not_underscore (c : ascii) :
  IsLetter (rune_of_byte c) = true -> Ascii.eqb c "_" = false.
Proof. by_bytes c. Qed.

Variable input : string.
Hypothesis alphabet : all_bytes allowed input = true.

(** An identifier read from a letter on has no stray underscore. *)
Lemma stray_identifier (p e : nat) (c : ascii) (b : bool) :
  String.get p input = Some c ->
  IsLetter (rune_of_byte c) = true ->
  stretch identchar input p e ->
  stray b (substring p (e - p) input) = 0.
Proof.
  intros Hc Hl (Hpe & Hall & _).
  replace (e - p) with (1 + (e - S p)) by lia.
  rewrite substring_app, (substring_one _ _ Hc). simpl.
  rewrite (letter_not_underscore c Hl). unfold word_next. rewrite Hl. simpl.
  apply stray_in_word, all_bytes_substring.
  intros k c' Hk Hget. apply (Hall k); [lia | assumption].
Qed.

Lemma counted_byte (p n : nat) (toks : list Token) (c : ascii) (t : string) :
  String.get p input = Some c ->
  word_next (inside_word input p) c = false ->
  String.length t
  + (if Ascii.eqb c "_" && negb (inside_word input p) then 1 else 0)
  = String.length (strip_space (String c "")) ->
  String.length (texts toks) + stray false (substring 0 p input)
  = String.length (strip_space (substring 0 p input)) ->
  String.length (texts toks ++ t) + stray false (substring 0 (S p) input)
  = String.length (strip_space (substring 0 (S p) input))
  /\ (inside_word input (S p) = true ->
      forall c', String.get (S p) input = Some c' -> identchar c' = false).
Proof.
  intros Hc Hw Ht Hn. split.
  - rewrite (@prefix_step input p c Hc), stray_app, strip_space_app, !length_app.
    fold (inside_word input p). simpl stray. lia.
  - rewrite (@inside_step input p c Hc), Hw. discriminate.
Qed.

Lemma counted_token (f : ascii -> bool) (p e : nat) (toks : list Token)
      (t : Token) :
  (forall c, f c = true -> IsSpace (rune_of_byte c) = false) ->
  stretch f input p e ->
  Value t = substring p (e - p) input ->
  stray (inside_word input p) (substring p (e - p) input) = 0 ->
  String.length (texts toks) + stray false (substring 0 p input)
  = String.length (strip_space (substring 0 p input)) ->
  String.length (texts (toks ++ [t])) + stray false (substring 0 e input)
  = String.length (strip_space (substring 0 e input)).
Proof.
  intros Hf Hst Hv Hs Hn. pose proof Hst as (Hpe & _).
  rewrite texts_snoc, (@prefix_stretch input p e) by lia.
  rewrite stray_app, strip_space_app, !length_app, Hv.
  fold (inside_word input p). rewrite Hs.
  rewrite (@strip_space_id _ (@stretch_no_space input f p e Hf Hst)). lia.
Qed.

Lemma Lex_counts (toks : list Token) (l' : Lexer) :
  tokenize input = Done toks l' ->
  String.length (texts toks) + stray false input
  = String.length (strip_space input).
Proof.
  intros Hrun.
  destruct (@Lex_invariant input (counted input))
    with (fuel := String.length input) as (l1 & Hrun1 & HP & _); auto.
  - (* white space *)
    intros p ts c Hc Hsp (Hn & _). unfold counted.
    rewrite <- (append_nil_r (texts ts)).
    pose proof (space_not_identchar c Hsp) as Hi.
    assert (Hl : IsLetter (rune_of_byte c) = false)
      by (unfold identchar in Hi; now destruct (IsLetter (rune_of_byte c))).
    apply counted_byte with c; auto.
    + unfold word_next. now rewrite Hl, Hi, andb_false_r.
    + simpl. rewrite Hsp.
      unfold identchar in Hi. rewrite !orb_false_iff in Hi.
      destruct Hi as (_ & ->). reflexivity.
  - (* a number *)
    intros p e ts c Hc _ Hdg Hst (Hn & Hw).
    assert (Hp : inside_word input p = false).
    { destruct (inside_word input p) eqn:E; [|reflexivity].
      specialize (Hw eq_refl c Hc). unfold identchar in Hw.
      rewrite Hdg, orb_true_r in Hw. discriminate. }
    pose proof Hst as (Hpe & Hall & _). split.
    + apply (@counted_token numchar p e ts _ numchar_not_space Hst);
        [reflexivity | | exact Hn].
      apply stray_no_underscore, all_bytes_substring. intros k c' Hk Hget.
      apply negb_true_iff, numchar_not_underscore, (Hall k); [lia|assumption].
    + unfold inside_word in *. rewrite (@prefix_stretch input p e) by lia.
      rewrite word_after_app, Hp, word_after_no_letter; [discriminate|].
      apply all_bytes_substring. intros k c' Hk Hget.
      apply negb_true_iff, numchar_not_letter, (Hall k); [lia|assumption].
  - (* an identifier *)
    intros p e ts c Hc _ _ Hl Hst (Hn & _). split.
    + apply (@counted_token identchar p e ts _ identchar_not_space Hst);
        [reflexivity | | exact Hn].
      now apply stray_identifier with c.
    + intros _. apply Hst.
  - (* a symbol *)
    intros p ts c Hc Hsp _ Hl Hsy (Hn & _). unfold counted.
    rewrite texts_snoc. cbn [Value].
    pose proof (symbol_not_identchar c Hsy) as Hi.
    apply counted_byte with c; auto.
    + unfold word_next. now rewrite Hl, Hi, andb_false_r.
    + simpl. rewrite Hsp.
      unfold identchar in Hi. rewrite !orb_false_iff in Hi.
      destruct Hi as (_ & ->). reflexivity.
  - (* a dropped byte: it is a stray underscore *)
    intros p ts c Hc Hsp Hdg Hl Hsy (Hn & Hw). unfold counted.
    assert (Ha : allowed c = true).
    { revert Hc. apply all_bytes_get. exact alphabet. }
    unfold allowed in Ha. rewrite Hsp, Hdg, Hl, Hsy in Ha. simpl in Ha.
    rewrite orb_false_r in Ha. pose proof Ha as Hu.
    apply Ascii.eqb_eq in Ha. subst c.
    assert (Hp : inside_word input p = false).
    { destruct (inside_word input p) eqn:E; [|reflexivity].
      specialize (Hw eq_refl _ Hc). discriminate. }
    rewrite <- (append_nil_r (texts ts)).
    apply counted_byte with "_"%char; auto.
    + unfold word_next. now rewrite Hp.
    + rewrite Hp. reflexivity.
  - (* at the start *)
    split.
    + now rewrite substring_nil.
    + unfold inside_word. now rewrite substring_nil.
  - unfold tokenize in Hrun. rewrite substring_all in HP.
    replace toks with (l_tokens l1) by congruence. exact HP.
Qed.

(** Over the alphabet, the texts of the tokens make up the text without
    its white space only if every underscore continues a word. *)
Lemma reconstructs_only_if :
  reconstructs input -> underscores_in_words false input = true.
Proof.
  intros (toks & l' & Hrun & Htx). apply stray_none.
  pose proof (Lex_counts Hrun) as Hn. rewrite Htx in Hn. lia.
Qed.

End ReconstructionOnlyIf.

(** C3, as the code has it.  For every text over the alphabet (white
    space, digits, letters, underscore, the ten symbols) in which every
    underscore continues a word that a letter started (and letters,
    digits and underscores continued), the texts of the tokens of
    [tokenize], in order, are the text without its white space. *)
Theorem texts_reconstruct (input : string) :
  all_bytes allowed input = true ->
  underscores_in_words false input = true ->
  reconstructs input.
Proof.
  intros Ha Hw. destruct (tokenize_returns input) as (toks & l' & Hrun).
  exists toks, l'. split; [assumption|].
  exact (@Lex_rebuilds input Ha Hw toks l' Hrun).
Qed.

Lemma texts_reconstruct_witness :
  all_bytes allowed "a_1 = b2 + 40" = true
  /\ underscores_in_words false "a_1 = b2 + 40" = true
  /\ reconstructs "a_1 = b2 + 40".
Proof.
  split; [reflexivity | split; [reflexivity|]].
  apply (texts_reconstruct "a_1 = b2 + 40"); reflexivity.
Defined.

(** C3, as stated, fails: the text "_" is over the alphabet, but an
    underscore that no letter precedes is dropped by [readSymbol], so
    the tokens (there is none) do not make up the text. *)
Lemma texts_reconstruct_counterexample :
  ~ (all_bytes allowed "_" = true -> reconstructs "_").
Proof.
  intros H. destruct (H eq_refl) as (toks & l' & Hrun & Htx).
  vm_compute in Hrun. injection Hrun as <- _. discriminate.
Qed.

(* ===================================================================== *)
(** ** What one call of each parser method does *)
(* ===================================================================== *)

Section ParserSteps.

Lemma operator_is_spec (a b : string) (w : world) :
  operator_is a b w
  = Done (TokenKind_eqb (Kind (p_current (w_parser w))) TokenOperator
          && (String.eqb (Value (p_current (w_parser w))) a
              || String.eqb (Value (p_current (w_parser w))) b)) w.
Proof.
  unfold operator_is, bind, current, gets. cbv beta iota.
  destruct (TokenKind_eqb _ _); simpl; [|reflexivity].
  destruct (String.eqb _ a); reflexivity.
Qed.

Lemma operator_is_false (a b : string) (w : world) :
  no_operator (w_parser w) = true -> operator_is a b w = Done false w.
Proof.
  unfold no_operator. rewrite andb_true_iff, negb_true_iff. intros [H _].
  now rewrite operator_is_spec, H.
Qed.

Lemma advance_no_operator (p : Parser) :
  no_operator p = true -> no_operator (Parser_advance p) = true.
Proof.
  unfold no_operator, Parser_advance. rewrite !andb_true_iff.
  intros [_ Hall]. destruct (p_pos p <? List.length (p_tokens p))%nat eqn:E;
    simpl; split; try assumption; try reflexivity.
  rewrite forallb_forall in Hall. apply Hall, nth_In.
  now apply Nat.ltb_lt.
Qed.

(** [factor] returns; it moves the cursor only past a Number. *)
Lemma factor_run (w : world) :
  factor w
  = match Kind (p_current (w_parser w)) with
    | TokenNumber =>
        Done (fst (strconv.ParseFloat (Value (p_current (w_parser w)))))
             (advanced w)
    | TokenIdentifier =>
        Done f64_zero (told w ("Parse error: Variable not supported" ++ LF))
    | _ => Done f64_zero (told w ("Parse error: Invalid expression" ++ LF))
    end.
Proof.
  unfold factor, bind, current, gets. cbv beta iota.
  destruct (Kind (p_current (w_parser w))) eqn:E; simpl; rewrite ?E;
    try reflexivity.
  destruct (strconv.ParseFloat (Value (p_current (w_parser w)))); reflexivity.
Qed.

Lemma factor_no_operator (w w' : world) (v : float64) :
  factor w = Done v w' ->
  no_operator (w_parser w) = true -> no_operator (w_parser w') = true.
Proof.
  rewrite factor_run. intros H Hno.
  destruct (Kind (p_current (w_parser w))); injection H as _ <-;
    simpl; auto using advance_no_operator.
Qed.

Lemma factor_returns (w : world) : exists v w', factor w = Done v w'.
Proof.
  rewrite factor_run. destruct (Kind (p_current (w_parser w))); eauto.
Qed.

Lemma term_no_operator (fuel : nat) (w : world) :
  no_operator (w_parser w) = true -> term fuel w = factor w.
Proof.
  intros Hno. unfold term, bind.
  destruct (factor_returns w) as (v & w' & Hf). rewrite Hf.
  apply while_exit, operator_is_false.
  eapply factor_no_operator; eassumption.
Qed.

Lemma expression_no_operator (fuel : nat) (w : world) :
  no_operator (w_parser w) = true -> expression fuel w = term fuel w.
Proof.
  intros Hno. unfold expression, bind.
  rewrite (term_no_operator fuel w Hno).
  destruct (factor_returns w) as (v & w' & Hf). rewrite Hf.
  apply while_exit, operator_is_false.
  eapply factor_no_operator; eassumption.
Qed.

Lemma iter_advance_no_operator (toks : list Token) (n : nat) :
  Forall (fun t => scanner_kind (Kind t) = true) toks ->
  no_operator (Nat.iter n Parser_advance (NewParser toks)) = true.
Proof.
  intros Hk. induction n as [|n IH]; simpl.
  - unfold no_operator. simpl. apply forallb_forall. intros t Ht.
    rewrite Forall_forall in Hk. specialize (Hk t Ht).
    now destruct (Kind t).
  - now apply advance_no_operator.
Qed.

Lemma ParseFloat_syntax_zero (s : string) :
  well_formed s = false -> fst (strconv.ParseFloat s) = f64_zero.
Proof.
  unfold well_formed, strconv.ParseFloat.
  destruct (strconv.special s) as [[f n]|].
  - destruct (n =? String.length s)%nat; simpl; [discriminate|reflexivity].
  - destruct (strconv.readFloat s) as [[| | |]|]; simpl;
      try discriminate; reflexivity.
Qed.

Lemma statement_unexpected (fuel : nat) (w : world) :
  Kind (p_current (w_parser w)) <> TokenIdentifier ->
  statement fuel w = Done tt (told w unexpected_token).
Proof.
  intros H. unfold statement, bind, current, gets. cbv beta iota.
  destruct (Kind (p_current (w_parser w))); try reflexivity. congruence.
Qed.

Lemma more_tokens_spec (w : world) :
  more_tokens w
  = Done (negb (TokenKind_eqb (Kind (p_current (w_parser w))) TokenInvalid)) w.
Proof. reflexivity. Qed.

(** The loop of [Parse] entered on a token that is neither an
    Identifier nor the Invalid sentinel: every turn prints the same
    diagnostic and leaves the parser as it was, so each budget ends
    with the loop still running. *)
Lemma Parse_loop_stuck (fuel : nat) (w : world) :
  Kind (p_current (w_parser w)) <> TokenIdentifier ->
  Kind (p_current (w_parser w)) <> TokenInvalid ->
  forall n out,
    while (fun _ => more_tokens) (fun _ => statement fuel) n tt
          (mkWorld (w_parser w) out)
    = StillRunning (mkWorld (w_parser w) (out ++ repeat unexpected_token n)).
Proof.
  intros Hid Hinv. induction n as [|n IH]; intros out.
  - simpl. destruct (Kind (p_current (w_parser w))); try congruence;
      simpl; now rewrite app_nil_r.
  - rewrite (while_turn (fun _ => more_tokens) (fun _ => statement fuel) n tt
               (a' := tt) (mkWorld (w_parser w) out)
               (s1 := mkWorld (w_parser w) out)
               (s2 := mkWorld (w_parser w) (out ++ [unexpected_token]))).
    + rewrite IH, <- app_assoc. reflexivity.
    + rewrite more_tokens_spec. simpl.
      destruct (Kind (p_current (w_parser w))); try congruence; reflexivity.
    + now rewrite statement_unexpected.
Qed.

End ParserSteps.

(* ===================================================================== *)
(** ** A larger budget changes no run of the parser that returned *)
(* ===================================================================== *)

Section ParserBudget.

Variables fuel fuel' : nat.
Hypothesis Hle : fuel <= fuel'.

Lemma term_more_fuel (w w' : world) (v : float64) :
  term fuel w = Done v w' -> term fuel' w = Done v w'.
Proof.
  unfold term, bind. destruct (factor w) as [r w1| |]; try discriminate.
  apply while_more_fuel; auto.
Qed.

Lemma expression_more_fuel (w w' : world) (v : float64) :
  expression fuel w = Done v w' -> expression fuel' w = Done v w'.
Proof.
  unfold expression, bind.
  destruct (term fuel w) as [r w1| |] eqn:E; try discriminate.
  rewrite (term_more_fuel _ E).
  apply while_more_fuel; [|exact Hle].
  intros a s a' s'. unfold expression_body, bind.
  destruct (current s) as [cur s1| |]; try discriminate.
  destruct (advance s1) as [u s2| |]; try discriminate.
  destruct (term fuel s2) as [t s3| |] eqn:Et; try discriminate.
  now rewrite (term_more_fuel _ Et).
Qed.

Lemma statement_more_fuel (w w' : world) (u : unit) :
  statement fuel w = Done u w' -> statement fuel' w = Done u w'.
Proof.
  unfold statement, assignmentStatement, bind.
  destruct (current w) as [cur w1| |]; try discriminate.
  destruct (TokenKind_eqb (Kind cur) TokenIdentifier); [|auto].
  destruct (current w1) as [cur1 w2| |]; try discriminate.
  destruct (advance w2) as [u2 w3| |]; try discriminate.
  destruct (current w3) as [cur3 w4| |]; try discriminate.
  destruct (negb (String.eqb (Value cur3) "=")); [auto|].
  destruct (advance w4) as [u4 w5| |]; try discriminate.
  destruct (expression fuel w5) as [v w6| |] eqn:E; try discriminate.
  now rewrite (expression_more_fuel _ E).
Qed.

Lemma Parse_more_fuel (w w' : world) (u : unit) :
  Parse fuel w = Done u w' -> Parse fuel' w = Done u w'.
Proof.
  unfold Parse, bind. destruct (advance w) as [u1 w1| |]; try discriminate.
  apply while_more_fuel; [|exact Hle].
  intros a s a' s'. apply statement_more_fuel.
Qed.

Lemma main_more_fuel (code : string) (w' : world) (u : unit) :
  main fuel code = Done u w' -> main fuel' code = Done u w'.
Proof.
  unfold main.
  destruct (Lex fuel (NewLexer code)) as [toks l1| |] eqn:E; try discriminate.
  rewrite (@Lex_more_fuel _ _ _ _ _ Hle E). apply Parse_more_fuel.
Qed.

End ParserBudget.

(* ===================================================================== *)
(** ** The parser on the scanner's tokens *)
(* ===================================================================== *)

(** C5. No token [tokenize] returns is an Operator: every one is a
    Number, an Identifier or a Punctuation.  Hence, in every state the
    parser reaches on such a token sequence by advancing its cursor, the
    guards of the loops of [expression] and [term] are false, their
    bodies never run (not even one turn is needed from the budget), and
    [expression] returns what its first term, which is its first factor,
    returns. *)
Theorem scanner_emits_no_operator
        (input : string) (toks : list Token) (l' : Lexer)
        (n fuel : nat) (out : list string) :
  tokenize input = Done toks l' ->
  let w := mkWorld (Nat.iter n Parser_advance (NewParser toks)) out in
  Forall (fun t => scanner_kind (Kind t) = true) toks
  /\ operator_is "+" "-" w = Done false w
  /\ operator_is "*" "/" w = Done false w
  /\ expression fuel w = term fuel w
  /\ term fuel w = factor w
  /\ expression 0 w = factor w.
Proof.
  intros Hrun w.
  pose proof (@tokens_scanner_kinds input toks l' Hrun) as Hk.
  assert (Hno : no_operator (w_parser w) = true)
    by (apply iter_advance_no_operator; exact Hk).
  repeat split.
  - exact Hk.
  - now apply operator_is_false.
  - now apply operator_is_false.
  - now apply expression_no_operator.
  - now apply term_no_operator.
  - rewrite expression_no_operator by assumption. now apply term_no_operator.
Qed.

Lemma scanner_emits_no_operator_witness :
  let toks := [mkToken TokenNumber "3"; mkToken TokenPunctuation "+";
               mkToken TokenNumber "4"] in
  let w := mkWorld (Nat.iter 1 Parser_advance (NewParser toks)) [] in
  tokenize "3 + 4" = Done toks (mkLexer "3 + 4" 5 toks Token_zero)
  /\ p_current (w_parser w) = mkToken TokenNumber "3"
  /\ expression 0 w
     = Done (S754_finite false 6755399441055744 (-51))
            (mkWorld (mkParser toks (mkToken TokenPunctuation "+") 2) []).
Proof.
  intros toks w.
  assert (Hrun : tokenize "3 + 4" = Done toks (mkLexer "3 + 4" 5 toks Token_zero))
    by (vm_compute; reflexivity).
  split; [exact Hrun | split; [reflexivity|]].
  destruct (@scanner_emits_no_operator _ _ _ 1 0 [] Hrun)
    as (_ & _ & _ & _ & _ & H).
  fold toks w in H. rewrite H. vm_compute. reflexivity.
Defined.

(** C6. On a current token of kind Number whose text [ParseFloat] does
    not accept as a number, [factor] returns the value 0, moves the
    cursor past the token and prints nothing. *)
Theorem factor_malformed_number (w : world) :
  Kind (p_current (w_parser w)) = TokenNumber ->
  well_formed (Value (p_current (w_parser w))) = false ->
  factor w = Done f64_zero (mkWorld (Parser_advance (w_parser w)) (w_stdout w)).
Proof.
  intros Hk Hbad. rewrite factor_run, Hk.
  now rewrite (ParseFloat_syntax_zero _ Hbad).
Qed.

Lemma factor_malformed_number_witness :
  let toks := [mkToken TokenIdentifier "v"; mkToken TokenPunctuation "=";
               mkToken TokenNumber "1.2.3"; mkToken TokenPunctuation ";"] in
  let w := mkWorld (mkParser toks (mkToken TokenNumber "1.2.3") 3) [] in
  returned (tokenize "v = 1.2.3;") = Some toks
  /\ Kind (p_current (w_parser w)) = TokenNumber
  /\ well_formed (Value (p_current (w_parser w))) = false
  /\ factor w
     = Done (S754_zero false)
            (mkWorld (mkParser toks (mkToken TokenPunctuation ";") 4) []).
Proof.
  intros toks w.
  assert (Hk : Kind (p_current (w_parser w)) = TokenNumber) by reflexivity.
  assert (Hbad : well_formed (Value (p_current (w_parser w))) = false)
    by (vm_compute; reflexivity).
  split; [vm_compute; reflexivity|]. split; [exact Hk|]. split; [exact Hbad|].
  rewrite (factor_malformed_number w Hk Hbad). reflexivity.
Defined.

(* ===================================================================== *)
(** ** Whole runs of [main] *)
(* ===================================================================== *)

Section Runs.

Lemma run_z_eq_w :
  main 5 "z = w"
  = Done tt (mkWorld (mkParser tokens_z_eq_w (mkToken TokenInvalid "") 3)
                     [prompt;
                      "Parse error: Variable not supported" ++ LF;
                      "Assign z = 0.000000" ++ LF;
                      "Parse error: Expected '='" ++ LF]).
Proof. vm_compute. reflexivity. Qed.

(** After a first statement that returns, the loop of [Parse] stuck on
    a token that starts no statement. *)
Lemma Parse_then_stuck (n : nat) (w0 w1 w2 : world) :
  advance w0 = Done tt w1 ->
  more_tokens w1 = Done true w1 ->
  statement (S n) w1 = Done tt w2 ->
  Kind (p_current (w_parser w2)) <> TokenIdentifier ->
  Kind (p_current (w_parser w2)) <> TokenInvalid ->
  Parse (S n) w0
  = StillRunning (mkWorld (w_parser w2) (w_stdout w2 ++ repeat unexpected_token n)).
Proof.
  intros Hadv Hcond Hbody Hid Hinv. unfold Parse, bind. rewrite Hadv.
  rewrite (while_turn (fun _ => more_tokens) (fun _ => statement (S n)) n tt
             w1 Hcond Hbody).
  destruct w2 as [p out].
  exact (@Parse_loop_stuck (S n) (mkWorld p out) Hid Hinv n out).
Qed.

Lemma run_5_eq_3 (fuel : nat) :
  5 <= fuel ->
  main fuel "5 = 3"
  = StillRunning (mkWorld (mkParser tokens_5_eq_3 (mkToken TokenNumber "5") 1)
                     (prompt :: repeat unexpected_token fuel)).
Proof.
  intros Hle. unfold main. rewrite Lex_budget by exact Hle.
  replace (tokenize "5 = 3")
    with (Done tokens_5_eq_3 (mkLexer "5 = 3" 5 tokens_5_eq_3 Token_zero))
    by (vm_compute; reflexivity).
  unfold Parse, bind. cbn [w_stdout].
  exact (@Parse_loop_stuck fuel
           (mkWorld (mkParser tokens_5_eq_3 (mkToken TokenNumber "5") 1) [prompt])
           ltac:(discriminate) ltac:(discriminate) fuel [prompt]).
Qed.

End Runs.

(** C1, as the code has it.  On "z = w" the program prints
    "Parse error: Variable not supported", then, the unsupported
    variable counting as 0, the line "Assign z = 0.000000", then
    "Parse error: Expected '='" for the token [w] it did not move past,
    and returns. *)
Theorem main_unsupported_variable (fuel : nat) :
  5 <= fuel ->
  returned (tokenize "z = w") = Some tokens_z_eq_w
  /\ main fuel "z = w"
     = Done tt (mkWorld (mkParser tokens_z_eq_w (mkToken TokenInvalid "") 3)
                        [prompt;
                         "Parse error: Variable not supported" ++ LF;
                         "Assign z = 0.000000" ++ LF;
                         "Parse error: Expected '='" ++ LF]).
Proof.
  intros Hle. split; [vm_compute; reflexivity|].
  exact (@main_more_fuel 5 fuel Hle _ _ _ run_z_eq_w).
Qed.

Lemma main_unsupported_variable_witness :
  5 <= 8
  /\ exists w, main 8 "z = w" = Done tt w
               /\ existsb assign_line (w_stdout w) = true.
Proof.
  split; [lia|].
  eexists. split; [apply (@main_unsupported_variable 8); lia | reflexivity].
Defined.

(** C1, as stated, fails: no run of the program on "z = w" returns
    having printed the diagnostic and no "Assign" line. *)
Lemma main_unsupported_variable_counterexample :
  ~ (exists fuel w,
        main fuel "z = w" = Done tt w
        /\ In ("Parse error: Variable not supported" ++ LF) (w_stdout w)
        /\ existsb assign_line (w_stdout w) = false).
Proof.
  intros (fuel & w & Hrun & _ & Hno).
  destruct (le_lt_dec 5 fuel) as [Hle|Hlt].
  - rewrite (@main_more_fuel 5 fuel Hle _ _ _ run_z_eq_w) in Hrun.
    injection Hrun as <-. vm_compute in Hno. discriminate.
  - do 5 (destruct fuel as [|fuel]; [vm_compute in Hrun; discriminate|]). lia.
Qed.

(** C2. On "x = 3 + 4 * 2" the scanner gives [+] and [*] the kind
    Punctuation; [expression], called on the token 3, returns 3 with the
    cursor on [+], whatever the budget (none is needed: the loops of
    [expression] and [term] do not turn); and the program prints
    "Assign x = 3.000000".  (It then never returns: the loop of [Parse]
    stays on [+].) *)
Theorem main_first_factor_only (fuel k : nat) :
  13 <= fuel ->
  let out := [prompt] in
  let at_3 := mkParser tokens_x_eq_sum (mkToken TokenNumber "3") 3 in
  let at_plus := mkParser tokens_x_eq_sum (mkToken TokenPunctuation "+") 4 in
  returned (tokenize "x = 3 + 4 * 2") = Some tokens_x_eq_sum
  /\ expression k (mkWorld at_3 out) = Done f64_three (mkWorld at_plus out)
  /\ main fuel "x = 3 + 4 * 2"
     = StillRunning (mkWorld at_plus
                        (out ++ ["Assign x = 3.000000" ++ LF]
                             ++ repeat unexpected_token (fuel - 1))).
Proof.
  intros Hle out at_3 at_plus. split; [vm_compute; reflexivity | split].
  - rewrite expression_no_operator, term_no_operator, factor_run
      by reflexivity.
    vm_compute. reflexivity.
  - unfold main. rewrite Lex_budget by exact Hle.
    replace (tokenize "x = 3 + 4 * 2")
      with (Done tokens_x_eq_sum
                 (mkLexer "x = 3 + 4 * 2" 13 tokens_x_eq_sum Token_zero))
      by (vm_compute; reflexivity).
    destruct fuel as [|n]; [lia|].
    replace (S n - 1) with n by lia.
    rewrite (@Parse_then_stuck n _
               (mkWorld (mkParser tokens_x_eq_sum (mkToken TokenIdentifier "x") 1) out)
               (mkWorld at_plus (out ++ ["Assign x = 3.000000" ++ LF])));
      try discriminate; reflexivity.
Qed.

Lemma main_first_factor_only_witness :
  13 <= 13
  /\ exists w, main 13 "x = 3 + 4 * 2" = StillRunning w
               /\ nth 1 (w_stdout w) "" = "Assign x = 3.000000" ++ LF
               /\ p_pos (w_parser w) = 4.
Proof.
  split; [lia|].
  eexists. split.
  - apply (proj2 (proj2 (@main_first_factor_only 13 0 (le_n 13)))).
  - split; reflexivity.
Defined.

(* ===================================================================== *)
(** ** Further properties of the scanner *)
(* ===================================================================== *)

Unset Implicit Arguments.

Section TokenForms.

Variable input : string.

Lemma substring_cons (p n : nat) (c : ascii) :
  String.get p input = Some c ->
  substring p (S n) input = String c (substring (S p) n input).
Proof.
  intros Hc. replace (S n) with (1 + n) by lia.
  rewrite substring_app, (substring_one _ _ Hc).
  replace (p + 1) with (S p) by lia. reflexivity.
Qed.

Lemma stretch_shape (f g : ascii -> bool) (p e : nat) (c : ascii) :
  String.get p input = Some c -> g c = true ->
  stretch f input p e ->
  first_byte g (substring p (e - p) input)
  && all_bytes f (substring p (e - p) input) = true.
Proof.
  intros Hc Hg (Hpe & Hall & _). apply andb_true_iff. split.
  - replace (e - p) with (S (e - S p)) by lia.
    now rewrite (substring_cons p _ c Hc).
  - apply all_bytes_substring. intros k c' Hk. apply Hall. lia.
Qed.

Lemma Lex_shapes (toks : list Token) (l' : Lexer) :
  tokenize input = Done toks l' ->
  Forall (fun t => shape_ok t = true) toks.
Proof.
  intros Hrun.
  destruct (@Lex_invariant input
              (fun _ ts => Forall (fun t => shape_ok t = true) ts))
    with (fuel := String.length input) as (l1 & Hrun1 & HP); auto.
  - intros p e ts c Hc _ Hdg Hst Hts. apply Forall_app. split; [assumption|].
    constructor; [|constructor]. unfold shape_ok. cbn [Kind Value].
    now apply (stretch_shape _ _ p e c).
  - intros p e ts c Hc _ _ Hl Hst Hts. apply Forall_app. split; [assumption|].
    constructor; [|constructor]. unfold shape_ok. cbn [Kind Value].
    now apply (stretch_shape _ _ p e c).
  - intros p ts c Hc _ _ _ Hsy Hts. apply Forall_app. split; [assumption|].
    constructor; [|constructor]. exact Hsy.
  - unfold tokenize in Hrun. congruence.
Qed.


End TokenForms.

(** X1. Every token [tokenize] returns has the lexical form of its
    kind: a Number is a digit followed by digits and points, an
    Identifier a letter followed by letters, digits and underscores, a
    Punctuation is one of the ten symbols; no other kind is emitted. *)
Theorem token_shapes (input : string) (toks : list Token) (l' : Lexer) :
  tokenize input = Done toks l' ->
  Forall (fun t => shape_ok t = true) toks.
Proof. apply Lex_shapes. Qed.

Lemma token_shapes_witness :
  tokenize "v1 = 3.5;" = Done [mkToken TokenIdentifier "v1";
                               mkToken TokenPunctuation "=";
                               mkToken TokenNumber "3.5";
                               mkToken TokenPunctuation ";"]
                              (mkLexer "v1 = 3.5;" 9
                                 [mkToken TokenIdentifier "v1";
                                  mkToken TokenPunctuation "=";
                                  mkToken TokenNumber "3.5";
                                  mkToken TokenPunctuation ";"] Token_zero)
  /\ Forall (fun t => shape_ok t = true)
            [mkToken TokenIdentifier "v1"; mkToken TokenPunctuation "=";
             mkToken TokenNumber "3.5"; mkToken TokenPunctuation ";"].
Proof.
  assert (H : tokenize "v1 = 3.5;"
              = Done [mkToken TokenIdentifier "v1";
                      mkToken TokenPunctuation "=";
                      mkToken TokenNumber "3.5";
                      mkToken TokenPunctuation ";"]
                     (mkLexer "v1 = 3.5;" 9
                        [mkToken TokenIdentifier "v1";
                         mkToken TokenPunctuation "=";
                         mkToken TokenNumber "3.5";
                         mkToken TokenPunctuation ";"] Token_zero))
    by (vm_compute; reflexivity).
  split; [exact H | exact (token_shapes _ _ _ H)].
Defined.



Section TokenCounts.

Variable input : string.

Lemma skipped_digit (c : ascii) :
  IsSpace (rune_of_byte c) = false ->
  (IsDigit (rune_of_byte c) = true \/ IsLetter (rune_of_byte c) = true
   \/ is_symbol c = true) ->
  skipped c = false.
Proof.
  intros Hs H. unfold skipped, unrecognised. rewrite Hs. simpl.
  destruct H as [-> | [-> | ->]]; simpl;
    rewrite ?andb_false_r; reflexivity.
Qed.

Lemma all_bytes_snoc (f : ascii -> bool) (s : string) (c : ascii) :
  all_bytes f (s ++ String c "") = all_bytes f s && f c.
Proof.
  induction s as [|x s IH]; simpl.
  - now rewrite andb_true_r.
  - now rewrite IH, andb_assoc.
Qed.

Lemma prefix_has (p e : nat) (c : ascii) (f : ascii -> bool) :
  p < e -> String.get p input = Some c -> f c = false ->
  all_bytes f (substring 0 e input) = false.
Proof.
  intros Hpe Hc Hf.
  destruct (all_bytes f (substring 0 e input)) eqn:E; [|reflexivity].
  rewrite all_bytes_get in E. specialize (E p c).
  rewrite substring_correct1 in E by assumption.
  replace (p + 0) with p in E by lia. rewrite (E Hc) in Hf. discriminate.
Qed.

Lemma Lex_sizes (toks : list Token) (l' : Lexer) :
  tokenize input = Done toks l' ->
  List.length toks <= String.length (texts toks)
  /\ String.length (texts toks) <= String.length input.
Proof.
  intros Hrun.
  pose (P := fun (p : nat) (ts : list Token) =>
               List.length ts <= String.length (texts ts)
               /\ String.length (texts ts) <= p).
  assert (Htok : forall p e ts t,
             p < e <= String.length input ->
             Value t = substring p (e - p) input ->
             P p ts -> P e (ts ++ [t])%list).
  { intros p e ts t Hpe Hv (H1 & H2). unfold P.
    rewrite texts_snoc, length_app, Hv, List.length_app.
    rewrite substring_length by lia. simpl. lia. }
  destruct (@Lex_invariant input P)
    with (fuel := String.length input) as (l1 & Hrun1 & HP); auto.
  - intros p ts c _ _ (H1 & H2). split; lia.
  - intros p e ts c _ _ _ (Hpe & _) HP. now apply (Htok p e).
  - intros p e ts c _ _ _ _ (Hpe & _) HP. now apply (Htok p e).
  - intros p ts c Hc _ _ _ _ HP. pose proof (get_Some_lt _ _ Hc).
    apply (Htok p (S p)); [lia | | exact HP]. cbn [Value].
    replace (S p - p) with 1 by lia. symmetry. now apply substring_one.
  - intros p ts c _ _ _ _ _ (H1 & H2). split; lia.
  - split; simpl; lia.
  - unfold tokenize in Hrun. replace toks with (l_tokens l1) by congruence.
    exact HP.
Qed.

Lemma Lex_nothing (toks : list Token) (l' : Lexer) :
  tokenize input = Done toks l' ->
  (toks = [] <-> all_bytes skipped input = true).
Proof.
  intros Hrun.
  pose (P := fun (p : nat) (ts : list Token) =>
               ts = [] <-> all_bytes skipped (substring 0 p input) = true).
  assert (Hskip : forall p ts c,
             String.get p input = Some c -> skipped c = true ->
             P p ts -> P (S p) ts).
  { intros p ts c Hc Hs HP. unfold P.
    rewrite (@prefix_step input p c Hc), all_bytes_snoc, Hs, andb_true_r.
    exact HP. }
  assert (Htok : forall p e ts t c,
             p < e -> String.get p input = Some c -> skipped c = false ->
             P e (ts ++ [t])%list).
  { intros p e ts t c Hpe Hc Hs. unfold P.
    rewrite (prefix_has p e c skipped Hpe Hc Hs). split.
    - intros H. now destruct ts.
    - discriminate. }
  destruct (@Lex_invariant input P)
    with (fuel := String.length input) as (l1 & Hrun1 & HP); auto.
  - intros p ts c Hc Hsp. apply Hskip with c; auto.
    unfold skipped. now rewrite Hsp.
  - intros p e ts c Hc Hsp Hdg (Hpe & _) _. apply Htok with p c; auto.
    + lia.
    + apply skipped_digit; auto.
  - intros p e ts c Hc Hsp _ Hl (Hpe & _) _. apply Htok with p c; auto.
    + lia.
    + apply skipped_digit; auto.
  - intros p ts c Hc Hsp _ _ Hsy _. apply Htok with p c; auto.
    apply skipped_digit; auto.
  - intros p ts c Hc Hsp Hdg Hl Hsy. apply Hskip with c; auto.
    unfold skipped, unrecognised. now rewrite Hsp, Hdg, Hl, Hsy.
  - unfold P. rewrite substring_nil. simpl. tauto.
  - unfold tokenize in Hrun. replace toks with (l_tokens l1) by congruence.
    unfold P in HP. now rewrite substring_all in HP.
Qed.

End TokenCounts.

(** X3. There are no more tokens than bytes in their texts, and the
    texts together are not longer than the text scanned. *)
Theorem tokens_bounded (input : string) (toks : list Token) (l' : Lexer) :
  tokenize input = Done toks l' ->
  List.length toks <= String.length (texts toks)
  /\ String.length (texts toks) <= String.length input.
Proof. apply Lex_sizes. Qed.

Lemma tokens_bounded_witness :
  List.length [mkToken TokenIdentifier "ab"; mkToken TokenNumber "7"] <= 3
  /\ 3 <= String.length " ab # 7 ".
Proof.
  apply (tokens_bounded " ab # 7 "
           [mkToken TokenIdentifier "ab"; mkToken TokenNumber "7"]
           (mkLexer " ab # 7 " 8
              [mkToken TokenIdentifier "ab"; mkToken TokenNumber "7"]
              Token_zero)).
  vm_compute. reflexivity.
Defined.

(** X4. [tokenize] returns no token exactly when every byte of the text
    is white space or an unrecognised byte; the empty text is the first
    case of it. *)
Theorem no_token_iff_all_skipped
        (input : string) (toks : list Token) (l' : Lexer) :
  tokenize input = Done toks l' ->
  (toks = [] <-> all_bytes skipped input = true).
Proof. apply Lex_nothing. Qed.

Lemma no_token_iff_all_skipped_witness :
  tokenize " #_. " = Done [] (mkLexer " #_. " 5 [] Token_zero)
  /\ all_bytes skipped " #_. " = true.
Proof.
  assert (H : tokenize " #_. " = Done [] (mkLexer " #_. " 5 [] Token_zero))
    by (vm_compute; reflexivity).
  split; [exact H|].
  apply (proj1 (no_token_iff_all_skipped _ _ _ H)). reflexivity.
Defined.

(** X5. [Lex] is finished after one call: called again on the lexer it
    left, with any budget (none is needed), it returns the same tokens
    and leaves the lexer as it is; no token is emitted twice. *)
Theorem Lex_again (input : string) (fuel fuel' : nat)
        (toks : list Token) (l' : Lexer) :
  String.length input <= fuel ->
  Lex fuel (NewLexer input) = Done toks l' ->
  Lex fuel' l' = Done toks l'.
Proof.
  intros Hle Hrun.
  destruct (@Lex_run input (fun _ _ => True)) with (fuel := fuel)
                                                  (l := NewLexer input)
    as (l1 & Hrun1 & Hin & Hpos & _); simpl; auto; try lia.
  rewrite Hrun in Hrun1. injection Hrun1 as -> ->.
  unfold Lex, bind.
  rewrite (while_exit (fun _ => in_input) (fun _ => Lex_body fuel') fuel' tt l1
             (s1 := l1)); [reflexivity|].
  rewrite in_input_get, Hin, Hpos.
  destruct (String.get (String.length input) input) eqn:E; [|reflexivity].
  apply get_Some_lt in E. lia.
Qed.

Lemma Lex_again_witness :
  String.length "a=1" <= 3
  /\ Lex 0 (mkLexer "a=1" 3 [mkToken TokenIdentifier "a";
                             mkToken TokenPunctuation "=";
                             mkToken TokenNumber "1"] Token_zero)
     = Done [mkToken TokenIdentifier "a"; mkToken TokenPunctuation "=";
             mkToken TokenNumber "1"]
            (mkLexer "a=1" 3 [mkToken TokenIdentifier "a";
                              mkToken TokenPunctuation "=";
                              mkToken TokenNumber "1"] Token_zero).
Proof.
  split; [simpl; lia|].
  apply (Lex_again "a=1" 3 0); [simpl; lia | vm_compute; reflexivity].
Defined.

(* ===================================================================== *)
(** ** The scanner reads the text once, from left to right *)
(* ===================================================================== *)

Section OnePass.

Lemma space_ends (m : mode) (c : ascii) :
  IsSpace (rune_of_byte c) = true -> continues m c = false.
Proof.
  intros Hs. destruct m; simpl; [reflexivity| |].
  - destruct (numchar c) eqn:E; [|reflexivity].
    apply numchar_not_space in E. congruence.
  - now apply space_not_identchar.
Qed.

(** A white space byte ends the token being read and starts afresh. *)
Lemma scan_separated (a b : string) (sp : ascii) :
  IsSpace (rune_of_byte sp) = true ->
  forall m acc,
    scan m acc (a ++ String sp b) = (scan m acc a ++ scan Between "" b)%list.
Proof.
  intros Hs. induction a as [|c a IH]; intros m acc; simpl.
  - now rewrite (space_ends m sp Hs), Hs.
  - destruct (continues m c); [apply IH|].
    rewrite <- app_assoc. f_equal.
    destruct (IsSpace (rune_of_byte c)); [apply IH|].
    destruct (IsDigit (rune_of_byte c)); [apply IH|].
    destruct (IsLetter (rune_of_byte c)); [apply IH|].
    destruct (is_symbol c); [simpl; f_equal|]; apply IH.
Qed.

Variable input : string.

Lemma get_in_range (k : nat) :
  k < String.length input -> exists c, String.get k input = Some c.
Proof.
  intros H. destruct (String.get k input) as [c|] eqn:E; eauto.
  apply get_None_iff in E. lia.
Qed.

Lemma suffix_cons (p : nat) (c : ascii) :
  String.get p input = Some c ->
  suffix input p = String c (suffix input (S p)).
Proof.
  intros Hc. pose proof (get_Some_lt _ _ Hc) as Hlt. unfold suffix.
  replace (String.length input - p) with (S (String.length input - S p)) by lia.
  now apply substring_cons.
Qed.

Lemma suffix_end : suffix input (String.length input) = "".
Proof. unfold suffix. rewrite Nat.sub_diag. apply substring_nil. Qed.

(** Leaving mode [m] at offset [q], where the token being read ends. *)
Lemma scan_leaves (m : mode) (acc : string) (q : nat) :
  (forall c, String.get q input = Some c -> continues m c = false) ->
  q <= String.length input ->
  scan m acc (suffix input q)
  = (flush m acc ++ scan Between "" (suffix input q))%list.
Proof.
  intros Hmax Hq. destruct (String.get q input) as [c|] eqn:E.
  - rewrite (suffix_cons q c E). simpl. now rewrite (Hmax c eq_refl).
  - apply get_None_iff in E. replace q with (String.length input) by lia.
    rewrite suffix_end. simpl. now rewrite app_nil_r.
Qed.

(** Reading on in mode [m] over [n] bytes that continue the token. *)
Lemma scan_stretch (m : mode) (n : nat) :
  forall q acc,
    q + n <= String.length input ->
    (forall k c, q <= k < q + n -> String.get k input = Some c ->
                 continues m c = true) ->
    (forall c, String.get (q + n) input = Some c -> continues m c = false) ->
    scan m acc (suffix input q)
    = (flush m (acc ++ substring q n input)
       ++ scan Between "" (suffix input (q + n)))%list.
Proof.
  induction n as [|n IH]; intros q acc Hle Hall Hmax.
  - rewrite substring_nil, append_nil_r, Nat.add_0_r in *.
    now apply scan_leaves.
  - destruct (get_in_range q) as (c & Hc); [lia|].
    rewrite (suffix_cons q c Hc). simpl.
    rewrite (Hall q c) by (auto; lia).
    rewrite (IH (S q) (acc ++ String c "")).
    + rewrite append_assoc. simpl.
      rewrite (substring_cons input q n c Hc).
      now replace (S (q + n)) with (q + S n) by lia.
    + lia.
    + intros k c' Hk. apply Hall. lia.
    + replace (S q + n) with (q + S n) by lia. exact Hmax.
Qed.

(** A token read from offset [p], whose first byte [c] starts the mode
    [m], up to offset [e]. *)
Lemma scan_token (m : mode) (p e : nat) (c : ascii) :
  String.get p input = Some c ->
  stretch (continues m) input p e ->
  scan m (String c "") (suffix input (S p))
  = (flush m (substring p (e - p) input)
     ++ scan Between "" (suffix input e))%list.
Proof.
  intros Hc (Hpe & Hall & Hmax).
  rewrite (scan_stretch m (e - S p) (S p) (String c "")).
  - replace (S p + (e - S p)) with e by lia.
    replace (e - p) with (S (e - S p)) by lia.
    now rewrite (substring_cons input p _ c Hc).
  - lia.
  - intros k c' Hk. apply Hall. lia.
  - replace (S p + (e - S p)) with e by lia. exact Hmax.
Qed.

Lemma Lex_scans (toks : list Token) (l' : Lexer) :
  tokenize input = Done toks l' -> toks = scan Between "" input.
Proof.
  intros Hrun.
  pose (P := fun (p : nat) (ts : list Token) =>
               scan Between "" input
               = (ts ++ scan Between "" (suffix input p))%list).
  destruct (@Lex_invariant input P)
    with (fuel := String.length input) as (l1 & Hrun1 & HP); auto.
  - intros p ts c Hc Hsp HP. unfold P in *.
    rewrite HP, (suffix_cons p c Hc). simpl. now rewrite Hsp.
  - intros p e ts c Hc Hsp Hdg Hst HP. unfold P in *.
    rewrite HP, (suffix_cons p c Hc). simpl. rewrite Hsp, Hdg.
    rewrite (scan_token InNumber p e c Hc Hst). simpl.
    now rewrite <- app_assoc.
  - intros p e ts c Hc Hsp Hdg Hl Hst HP. unfold P in *.
    rewrite HP, (suffix_cons p c Hc). simpl. rewrite Hsp, Hdg, Hl.
    rewrite (scan_token InIdentifier p e c Hc Hst). simpl.
    now rewrite <- app_assoc.
  - intros p ts c Hc Hsp Hdg Hl Hsy HP. unfold P in *.
    rewrite HP, (suffix_cons p c Hc). simpl. rewrite Hsp, Hdg, Hl, Hsy.
    now rewrite <- app_assoc.
  - intros p ts c Hc Hsp Hdg Hl Hsy HP. unfold P in *.
    rewrite HP, (suffix_cons p c Hc). simpl. now rewrite Hsp, Hdg, Hl, Hsy.
  - unfold P, suffix. rewrite Nat.sub_0_r, substring_all. reflexivity.
  - unfold P in HP. rewrite suffix_end in HP. simpl in HP.
    rewrite app_nil_r in HP. unfold tokenize in Hrun. congruence.
Qed.

End OnePass.

(** X6. The scanner, which moves an offset to and fro between three
    methods, returns on every text the tokens of a single pass over its
    bytes that keeps two things: whether it is between tokens, in a
    number or in an identifier, and the text of the token being read. *)
Theorem tokenize_one_pass (input : string) :
  exists l', tokenize input = Done (scan Between "" input) l'.
Proof.
  destruct (tokenize_returns input) as (toks & l' & Hrun).
  exists l'. now rewrite <- (Lex_scans input toks l' Hrun).
Qed.

(** X7. A white space byte separates: the tokens of a text, a white
    space byte and another text are the tokens of the first followed by
    the tokens of the second.  No token spans the two parts, and none
    depends on what the other part holds. *)
Theorem whitespace_separates (a b : string) (sp : ascii) :
  IsSpace (rune_of_byte sp) = true ->
  exists ta la tb lb l',
    tokenize a = Done ta la
    /\ tokenize b = Done tb lb
    /\ tokenize (a ++ String sp b) = Done (ta ++ tb)%list l'.
Proof.
  intros Hs.
  destruct (tokenize_returns a) as (ta & la & Ha).
  destruct (tokenize_returns b) as (tb & lb & Hb).
  destruct (tokenize_returns (a ++ String sp b)) as (t & l' & Hab).
  exists ta, la, tb, lb, l'. repeat split; try assumption.
  rewrite Hab. f_equal.
  rewrite (Lex_scans _ _ _ Ha), (Lex_scans _ _ _ Hb), (Lex_scans _ _ _ Hab).
  now apply scan_separated.
Qed.

Lemma whitespace_separates_witness :
  IsSpace (rune_of_byte (ascii_of_N 9)) = true
  /\ exists l', tokenize ("x1" ++ String (ascii_of_N 9) "=2")
                = Done [mkToken TokenIdentifier "x1";
                        mkToken TokenPunctuation "=";
                        mkToken TokenNumber "2"] l'.
Proof.
  split; [reflexivity|].
  destruct (whitespace_separates "x1" "=2" (ascii_of_N 9) eq_refl)
    as (ta & la & tb & lb & l' & Ha & Hb & Hab).
  vm_compute in Ha. injection Ha as <- _.
  vm_compute in Hb. injection Hb as <- _.
  exists l'. exact Hab.
Defined.

(** X8. White space at the end of the line changes nothing: [main] on a
    line followed by a white space byte, such as the line feed that
    [ReadString] leaves at its end, does what it does on the line
    without it. *)
Theorem main_ignores_trailing_space (code : string) (sp : ascii) (fuel : nat) :
  IsSpace (rune_of_byte sp) = true ->
  String.length code + 1 <= fuel ->
  main fuel (code ++ String sp "") = main fuel code.
Proof.
  intros Hs Hle. unfold main.
  rewrite (@Lex_budget (code ++ String sp "") fuel)
    by (rewrite length_app; simpl; lia).
  rewrite (@Lex_budget code fuel) by lia.
  destruct (tokenize_returns code) as (t & l & H).
  destruct (tokenize_returns (code ++ String sp "")) as (t' & l' & H').
  rewrite H, H'.
  rewrite (Lex_scans _ _ _ H), (Lex_scans _ _ _ H').
  rewrite (scan_separated code "" sp Hs). simpl. now rewrite app_nil_r.
Qed.

Lemma main_ignores_trailing_space_witness :
  IsSpace (rune_of_byte (ascii_of_N 10)) = true
  /\ String.length "y = 5" + 1 <= 6
  /\ main 6 ("y = 5" ++ LF) = main 6 "y = 5".
Proof.
  split; [reflexivity | split; [simpl; lia|]].
  apply (main_ignores_trailing_space "y = 5" (ascii_of_N 10) 6);
    [reflexivity | simpl; lia].
Defined.

(* ===================================================================== *)
(** ** Further properties of the parser: what it never does *)
(* ===================================================================== *)

Section Evolution.

Lemma evolves_refl (w : world) : evolves w w.
Proof.
  split.
  - exists 0. reflexivity.
  - exists []. split; [now rewrite app_nil_r | constructor].
Qed.

Lemma evolves_trans (w1 w2 w3 : world) :
  evolves w1 w2 -> evolves w2 w3 -> evolves w1 w3.
Proof.
  intros ((k1 & Hk1) & (n1 & Ho1 & Hf1)) ((k2 & Hk2) & (n2 & Ho2 & Hf2)).
  split.
  - exists (k2 + k1). now rewrite Nat.iter_add, <- Hk1.
  - exists (n1 ++ n2)%list. split.
    + now rewrite Ho2, Ho1, app_assoc.
    + apply Forall_app. now split.
Qed.

Lemma sound_ret {A : Type} (a : A) : sound (ret a).
Proof. intros w. apply evolves_refl. Qed.

Lemma sound_bind {A B : Type} (c : M world A) (k : A -> M world B) :
  sound c -> (forall a, sound (k a)) -> sound (bind c k).
Proof.
  intros Hc Hk w. unfold bind. specialize (Hc w).
  destruct (c w) as [a w1| |w1]; try assumption.
  specialize (Hk a w1).
  destruct (k a w1) as [b w2| |w2]; try assumption;
    eapply evolves_trans; eassumption.
Qed.

Lemma sound_while {A : Type} (cond : A -> M world bool)
      (body : A -> M world A) :
  (forall a, sound (cond a)) -> (forall a, sound (body a)) ->
  forall fuel a, sound (while cond body fuel a).
Proof.
  intros Hc Hb. induction fuel as [|fuel IH]; intros a w; simpl;
    specialize (Hc a w); destruct (cond a w) as [[|] w1| |w1];
    try assumption.
  specialize (Hb a w1). destruct (body a w1) as [a' w2| |w2].
  - specialize (IH a' w2).
    destruct (while cond body fuel a' w2) as [a'' w3| |w3]; try assumption;
      eapply evolves_trans; [|eassumption| |eassumption];
      eapply evolves_trans; eassumption.
  - assumption.
  - eapply evolves_trans; eassumption.
Qed.

Lemma sound_current : sound current.
Proof. intros w. apply evolves_refl. Qed.

Lemma sound_advance : sound advance.
Proof.
  intros w. split.
  - exists 1. reflexivity.
  - exists []. split; [simpl; now rewrite app_nil_r | constructor].
Qed.

Lemma sound_Print (line : string) : parser_line line -> sound (Print line).
Proof.
  intros Hl w. split.
  - exists 0. reflexivity.
  - exists [line]. split; [reflexivity | now constructor].
Qed.

Lemma sound_error (m : string) : In m diagnostics -> sound (error m).
Proof. intros Hm. apply sound_Print. left. now exists m. Qed.

Lemma sound_factor : sound factor.
Proof.
  unfold factor. apply sound_bind; [apply sound_current|]. intros cur.
  destruct (TokenKind_eqb (Kind cur) TokenNumber).
  - apply sound_bind; [apply sound_current|]. intros cur'.
    destruct (strconv.ParseFloat (Value cur')).
    apply sound_bind; [apply sound_advance | intros; apply sound_ret].
  - apply sound_bind; [apply sound_current|]. intros cur'.
    destruct (TokenKind_eqb (Kind cur') TokenIdentifier);
      (apply sound_bind; [|intros; apply sound_ret]);
      apply sound_error; simpl; tauto.
Qed.

Lemma sound_operator_is (a b : string) : sound (operator_is a b).
Proof.
  intros w. rewrite operator_is_spec. apply evolves_refl.
Qed.

Lemma sound_term (fuel : nat) : sound (term fuel).
Proof.
  unfold term. apply sound_bind; [apply sound_factor|]. intros r.
  apply sound_while; intros a.
  - apply sound_operator_is.
  - unfold term_body. apply sound_bind; [apply sound_current|]. intros cur.
    apply sound_bind; [apply sound_advance|]. intros _.
    apply sound_bind; [apply sound_factor | intros; apply sound_ret].
Qed.

Lemma sound_expression (fuel : nat) : sound (expression fuel).
Proof.
  unfold expression. apply sound_bind; [apply sound_term|]. intros r.
  apply sound_while; intros a.
  - apply sound_operator_is.
  - unfold expression_body.
    apply sound_bind; [apply sound_current|]. intros cur.
    apply sound_bind; [apply sound_advance|]. intros _.
    apply sound_bind; [apply sound_term | intros; apply sound_ret].
Qed.

Lemma sound_statement (fuel : nat) : sound (statement fuel).
Proof.
  unfold statement. apply sound_bind; [apply sound_current|]. intros cur.
  destruct (TokenKind_eqb (Kind cur) TokenIdentifier).
  - unfold assignmentStatement.
    apply sound_bind; [apply sound_current|]. intros cur1.
    apply sound_bind; [apply sound_advance|]. intros _.
    apply sound_bind; [apply sound_current|]. intros cur2.
    destruct (negb (String.eqb (Value cur2) "=")).
    + apply sound_error. simpl. tauto.
    + apply sound_bind; [apply sound_advance|]. intros _.
      apply sound_bind; [apply sound_expression|]. intros value.
      apply sound_Print. right. now exists (Value cur1), value.
  - apply sound_error. simpl. tauto.
Qed.

Lemma sound_Parse (fuel : nat) : sound (Parse fuel).
Proof.
  unfold Parse. apply sound_bind; [apply sound_advance|]. intros _.
  apply sound_while; intros a.
  - intros w. rewrite more_tokens_spec. apply evolves_refl.
  - apply sound_statement.
Qed.

Lemma advance_keeps (p : Parser) :
  p_tokens (Parser_advance p) = p_tokens p
  /\ p_pos p <= p_pos (Parser_advance p).
Proof.
  unfold Parser_advance.
  destruct (p_pos p <? List.length (p_tokens p))%nat; simpl; auto.
Qed.

Lemma iter_advance_keeps (k : nat) (p : Parser) :
  p_tokens (Nat.iter k Parser_advance p) = p_tokens p
  /\ p_pos p <= p_pos (Nat.iter k Parser_advance p).
Proof.
  induction k as [|k (IH1 & IH2)]; simpl; [auto|].
  destruct (advance_keeps (Nat.iter k Parser_advance p)) as (H1 & H2).
  split; [congruence | lia].
Qed.

End Evolution.

(** X9. What [Parse] never does, on any token sequence, from any state
    and with any budget: it does not panic; it leaves the token sequence
    as it is; it never moves the cursor back (the parser it leaves, or
    is still working on, is the one it was given after some number of
    calls of [advance]); and it only adds lines to the output, each of
    them one of the four diagnostics or a binding "Assign ... = ...". *)
Theorem Parse_only_advances_and_prints (fuel : nat) (w : world) :
  match Parse fuel w with
  | Done _ w' | StillRunning w' =>
      p_tokens (w_parser w') = p_tokens (w_parser w)
      /\ p_pos (w_parser w) <= p_pos (w_parser w')
      /\ (exists k, w_parser w' = Nat.iter k Parser_advance (w_parser w))
      /\ (exists new, w_stdout w' = (w_stdout w ++ new)%list
                      /\ Forall parser_line new)
  | Panic => False
  end.
Proof.
  pose proof (sound_Parse fuel w) as H.
  destruct (Parse fuel w) as [u w'| |w']; try assumption;
    destruct H as ((k & Hk) & Hout);
    destruct (iter_advance_keeps k (w_parser w)) as (H1 & H2);
    rewrite <- Hk in H1, H2; eauto.
Qed.

(* ===================================================================== *)
(** ** The cursor *)
(* ===================================================================== *)

Lemma iter_advance_new (toks : list Token) (i : nat) :
  Nat.iter i Parser_advance (NewParser toks)
  = mkParser toks
             (match i with
              | O => Token_zero
              | S j => nth j toks (mkToken TokenInvalid "")
              end)
             (Nat.min i (List.length toks)).
Proof.
  induction i as [|i IH]; [reflexivity|].
  simpl Nat.iter. rewrite IH. unfold Parser_advance. cbn [p_pos p_tokens].
  destruct (Nat.min i (List.length toks) <? List.length toks)%nat eqn:E.
  - apply Nat.ltb_lt in E.
    replace (Nat.min i (List.length toks)) with i in * by lia.
    f_equal. lia.
  - apply Nat.ltb_ge in E.
    rewrite nth_overflow by lia. f_equal. lia.
Qed.

(** X10. The cursor after [i] calls of [advance] on a new parser: the
    current token is the zero token before the first call, then the
    [i]-th token of the sequence, and the Invalid sentinel once the
    sequence is used up; the offset is [i], and stays at the length of
    the sequence from there on. *)
Theorem cursor_after (toks : list Token) (i : nat) :
  Nat.iter i Parser_advance (NewParser toks)
  = mkParser toks
             (match i with
              | O => Token_zero
              | S j => nth j toks (mkToken TokenInvalid "")
              end)
             (Nat.min i (List.length toks)).
Proof. apply iter_advance_new. Qed.

Section Termination.

Lemma advance_remaining (p : Parser) :
  remaining (Parser_advance p)
  + (if TokenKind_eqb (Kind (p_current p)) TokenInvalid then 0 else 1)
  <= remaining p.
Proof.
  unfold remaining, Parser_advance.
  destruct (p_pos p <? List.length (p_tokens p))%nat eqn:E; cbn [p_pos p_tokens p_current Kind].
  - apply Nat.ltb_lt in E.
    destruct (TokenKind_eqb _ TokenInvalid), (TokenKind_eqb _ TokenInvalid); lia.
  - apply Nat.ltb_ge in E. simpl.
    destruct (TokenKind_eqb _ TokenInvalid); lia.
Qed.

Lemma advance_remaining_le (p : Parser) :
  remaining (Parser_advance p) <= remaining p.
Proof. pose proof (advance_remaining p). lia. Qed.

Lemma factor_remaining (w : world) :
  exists v w', factor w = Done v w'
               /\ remaining (w_parser w') <= remaining (w_parser w).
Proof.
  rewrite factor_run.
  destruct (Kind (p_current (w_parser w)));
    eexists; eexists; (split; [reflexivity|]); simpl;
    auto using advance_remaining_le.
Qed.

Lemma operator_counts (a b : string) (w : world) :
  operator_is a b w = Done true w ->
  TokenKind_eqb (Kind (p_current (w_parser w))) TokenInvalid = false.
Proof.
  rewrite operator_is_spec. intros H. injection H as H.
  destruct (Kind (p_current (w_parser w))); simpl in *;
    try discriminate; reflexivity.
Qed.

Lemma term_remaining (fuel : nat) (w : world) :
  remaining (w_parser w) <= fuel ->
  exists v w', term fuel w = Done v w'
               /\ remaining (w_parser w') <= remaining (w_parser w).
Proof.
  intros Hfuel. unfold term, bind.
  destruct (factor_remaining w) as (r & w1 & Hf & Hr). rewrite Hf.
  destruct (@while_total world float64 (fun _ => operator_is "*" "/") term_body
              (fun _ s => remaining (w_parser s) <= remaining (w_parser w1))
              (fun _ s => remaining (w_parser s)))
    with (fuel := fuel) (a := r) (s := w1) as (v & w' & Hrun & HI & _).
  - intros a s _. rewrite operator_is_spec. eauto.
  - intros a s HI Hc. apply operator_counts in Hc.
    unfold term_body, bind, current, gets, advance, modify.
    destruct (factor_remaining (mkWorld (Parser_advance (w_parser s)) (w_stdout s)))
      as (f & s' & Hf' & Hr').
    rewrite Hf'. eexists; eexists. split; [reflexivity|].
    pose proof (advance_remaining (w_parser s)) as Ha. rewrite Hc in Ha.
    simpl in Hr'. lia.
  - lia.
  - lia.
  - exists v, w'. split; [assumption | lia].
Qed.

Lemma expression_remaining (fuel : nat) (w : world) :
  remaining (w_parser w) <= fuel ->
  exists v w', expression fuel w = Done v w'
               /\ remaining (w_parser w') <= remaining (w_parser w).
Proof.
  intros Hfuel. unfold expression, bind.
  destruct (term_remaining fuel w Hfuel) as (r & w1 & Hf & Hr). rewrite Hf.
  destruct (@while_total world float64 (fun _ => operator_is "+" "-")
              (expression_body fuel)
              (fun _ s => remaining (w_parser s) <= remaining (w_parser w1))
              (fun _ s => remaining (w_parser s)))
    with (fuel := fuel) (a := r) (s := w1) as (v & w' & Hrun & HI & _).
  - intros a s _. rewrite operator_is_spec. eauto.
  - intros a s HI Hc. apply operator_counts in Hc.
    unfold expression_body, bind, current, gets, advance, modify.
    pose proof (advance_remaining (w_parser s)) as Ha. rewrite Hc in Ha.
    destruct (term_remaining fuel
                (mkWorld (Parser_advance (w_parser s)) (w_stdout s)))
      as (f & s' & Hf' & Hr'); [simpl; lia|].
    rewrite Hf'. eexists; eexists. split; [reflexivity|].
    simpl in Hr'. lia.
  - lia.
  - lia.
  - exists v, w'. split; [assumption | lia].
Qed.

(** A statement returns, and uses up a token when it starts on an
    Identifier. *)
Lemma statement_remaining (fuel : nat) (w : world) :
  remaining (w_parser w) <= fuel ->
  exists w', statement fuel w = Done tt w'
             /\ (Kind (p_current (w_parser w)) = TokenIdentifier ->
                 remaining (w_parser w') < remaining (w_parser w)).
Proof.
  intros Hfuel. unfold statement, bind, current, gets. cbv beta iota.
  destruct (Kind (p_current (w_parser w))) eqn:Ek; simpl;
    try (eexists; split; [reflexivity | discriminate]).
  unfold assignmentStatement, bind, current, gets, advance, modify.
  cbv beta iota. cbn [w_parser w_stdout].
  pose proof (advance_remaining (w_parser w)) as Ha.
  rewrite Ek in Ha. simpl in Ha.
  destruct (negb (String.eqb (Value (p_current (Parser_advance (w_parser w)))) "=")).
  - eexists. split; [reflexivity|]. intros _. simpl. lia.
  - pose proof (advance_remaining_le (Parser_advance (w_parser w))) as Ha2.
    destruct (expression_remaining fuel
                (mkWorld (Parser_advance (Parser_advance (w_parser w)))
                         (w_stdout w)))
      as (v & w1 & He & Hr); [simpl; lia|].
    cbn [w_parser w_stdout]. rewrite He. eexists. split; [reflexivity|].
    intros _. simpl in *. lia.
Qed.

Lemma while_stops {St A : Type} (cond : A -> M St bool) (body : A -> M St A)
      (a : A) (s s1 : St) :
  cond a s = Done true s1 -> while cond body 0 a s = StillRunning s1.
Proof. intros H. simpl. now rewrite H. Qed.

(** The loop of [Parse] from a state with [n] tokens to use up: it
    returns within [n] turns, or reaches a token that starts no
    statement and stays there. *)
Lemma Parse_loop_ends_or_stays (n : nat) :
  forall w,
    remaining (w_parser w) <= n ->
    (exists w', forall F m, n <= F -> n <= m ->
       while (fun _ => more_tokens) (fun _ => statement F) m tt w = Done tt w')
    \/ (forall F m, n <= F ->
          exists w',
            while (fun _ => more_tokens) (fun _ => statement F) m tt w
            = StillRunning w').
Proof.
  induction n as [|n IH]; intros w Hn;
    destruct (Kind (p_current (w_parser w))) eqn:Ek;
    try (left; exists w; intros F m _ _; apply while_exit;
         rewrite more_tokens_spec, Ek; reflexivity);
    try (right; intros F m _; destruct w as [p out]; eexists;
         apply (@Parse_loop_stuck F (mkWorld p out)); simpl in *; congruence).
  - unfold remaining in Hn. rewrite Ek in Hn. simpl in Hn. lia.
  - destruct (statement_remaining (S n) w Hn) as (w1 & Hs & Hlt).
    specialize (Hlt Ek).
    assert (Hc : more_tokens w = Done true w)
      by (rewrite more_tokens_spec, Ek; reflexivity).
    assert (HsF : forall F, S n <= F -> statement F w = Done tt w1)
      by (intros F HF; exact (@statement_more_fuel (S n) F HF w w1 tt Hs)).
    destruct (IH w1) as [(w' & Hdone) | Hstay]; [lia| |].
    + left. exists w'. intros F m HF Hm. destruct m as [|m]; [lia|].
      rewrite (while_turn (fun _ => more_tokens) (fun _ => statement F) m tt
                 w Hc (HsF F HF)).
      apply Hdone; lia.
    + right. intros F m HF. destruct m as [|m].
      * exists w. now apply while_stops.
      * rewrite (while_turn (fun _ => more_tokens) (fun _ => statement F) m tt
                   w Hc (HsF F HF)).
        apply Hstay. lia.
Qed.

Lemma Parse_ends_or_stays (w : world) :
  (exists w', forall fuel, remaining (w_parser w) <= fuel ->
                           Parse fuel w = Done tt w')
  \/ (forall fuel, exists w', Parse fuel w = StillRunning w').
Proof.
  set (n := remaining (w_parser w)).
  pose proof (advance_remaining_le (w_parser w)) as Ha.
  destruct (Parse_loop_ends_or_stays n
              (mkWorld (Parser_advance (w_parser w)) (w_stdout w)) Ha)
    as [(w' & Hdone) | Hstay].
  - left. exists w'. intros fuel Hf. unfold Parse, bind, advance, modify.
    now apply Hdone.
  - right. intros fuel.
    assert (Hat : exists w', Parse (Nat.max fuel n) w = StillRunning w').
    { unfold Parse, bind, advance, modify. apply Hstay. lia. }
    destruct Hat as (w1 & Hat).
    pose proof (sound_Parse fuel w) as Hs.
    destruct (Parse fuel w) as [[] w'| |w'] eqn:E.
    + rewrite (@Parse_more_fuel fuel (Nat.max fuel n) (Nat.le_max_l _ _)
                 w w' tt E) in Hat. discriminate.
    + contradiction.
    + eauto.
Qed.

(** *** The top of the statement loop *)

Lemma loop_top_S (F k : nat) (w : world) :
  loop_top F (S k) w
  = match more_tokens w with
    | Done true w1 =>
        match statement F w1 with
        | Done _ w2 => loop_top F k w2
        | _ => None
        end
    | _ => None
    end.
Proof. reflexivity. Qed.

Lemma loop_top_next (F k : nat) (w w1 w2 : world) :
  more_tokens w = Done true w ->
  statement F w = Done tt w1 ->
  loop_top F k w1 = Some w2 ->
  loop_top F (S k) w = Some w2.
Proof. intros Hc Hs H. rewrite loop_top_S, Hc, Hs. exact H. Qed.

(** One more turn at the far end. *)
Lemma loop_top_snoc (F : nat) :
  forall k w w1 w2,
    loop_top F k w = Some w1 ->
    more_tokens w1 = Done true w1 ->
    statement F w1 = Done tt w2 ->
    loop_top F (S k) w = Some w2.
Proof.
  induction k as [|k IH]; intros w w1 w2 H Hc Hs.
  - injection H as <-. now apply (loop_top_next F 0 w w2 w2).
  - rewrite loop_top_S in H |- *. rewrite more_tokens_spec in H |- *.
    destruct (negb (TokenKind_eqb (Kind (p_current (w_parser w))) TokenInvalid));
      [|discriminate].
    destruct (statement F w) as [u w3| |]; try discriminate.
    now apply (IH w3 w1 w2).
Qed.

Lemma loop_top_more_fuel (F F' : nat) :
  F <= F' ->
  forall k w w1, loop_top F k w = Some w1 -> loop_top F' k w = Some w1.
Proof.
  intros Hle. induction k as [|k IH]; intros w w1 H; [exact H|].
  rewrite loop_top_S in H |- *. rewrite more_tokens_spec in H |- *.
  destruct (negb (TokenKind_eqb (Kind (p_current (w_parser w))) TokenInvalid));
    [|discriminate].
  destruct (statement F w) as [u w2| |] eqn:Es; try discriminate.
  rewrite (@statement_more_fuel F F' Hle w w2 u Es). now apply IH.
Qed.

(** After the [k] turns that lead to a top of the loop, the loop goes
    on from there with the budget that is left. *)
Lemma loop_top_run (F : nat) :
  forall k w w1,
    loop_top F k w = Some w1 ->
    forall n,
      while (fun _ => more_tokens) (fun _ => statement F) (k + n) tt w
      = while (fun _ => more_tokens) (fun _ => statement F) n tt w1.
Proof.
  induction k as [|k IH]; intros w w1 H n.
  - injection H as <-. reflexivity.
  - rewrite loop_top_S, more_tokens_spec in H.
    destruct (negb (TokenKind_eqb (Kind (p_current (w_parser w))) TokenInvalid))
      eqn:Ec; [|discriminate].
    destruct (statement F w) as [[] w2| |] eqn:Es; try discriminate.
    assert (Hc : more_tokens w = Done true w)
      by (rewrite more_tokens_spec, Ec; reflexivity).
    change (S k + n) with (S (k + n)).
    rewrite (while_turn (fun _ => more_tokens) (fun _ => statement F) (k + n) tt
               w Hc Es).
    now apply IH.
Qed.

(** [Parse] whose loop comes to a token that starts no statement: the
    turns of the budget that are left each print the diagnostic. *)
Lemma Parse_stays (F k : nat) (w0 w1 : world) :
  loop_top F k (advanced w0) = Some w1 ->
  Kind (p_current (w_parser w1)) <> TokenIdentifier ->
  Kind (p_current (w_parser w1)) <> TokenInvalid ->
  forall fuel, F <= fuel -> k <= fuel ->
    Parse fuel w0
    = StillRunning (mkWorld (w_parser w1)
                            (w_stdout w1 ++ repeat unexpected_token (fuel - k))).
Proof.
  intros H Hid Hinv fuel HF Hk.
  pose proof (loop_top_run fuel k (advanced w0) w1
                (loop_top_more_fuel F fuel HF k _ _ H) (fuel - k)) as Hr.
  replace (k + (fuel - k)) with fuel in Hr by lia.
  unfold Parse, bind, advance, modify.
  change (mkWorld (Parser_advance (w_parser w0)) (w_stdout w0)) with (advanced w0).
  rewrite Hr. destruct w1 as [p out].
  exact (@Parse_loop_stuck fuel (mkWorld p out) Hid Hinv (fuel - k) out).
Qed.

Lemma Parse_stays_always (F k : nat) (w0 w1 : world) :
  loop_top F k (advanced w0) = Some w1 ->
  Kind (p_current (w_parser w1)) <> TokenIdentifier ->
  Kind (p_current (w_parser w1)) <> TokenInvalid ->
  forall fuel, exists w', Parse fuel w0 = StillRunning w'.
Proof.
  intros H Hid Hinv fuel.
  assert (Hle : fuel <= Nat.max fuel (Nat.max F k)) by lia.
  assert (Hbig : exists w', Parse (Nat.max fuel (Nat.max F k)) w0 = StillRunning w')
    by (eexists; apply (Parse_stays F k w0 w1 H Hid Hinv); lia).
  destruct Hbig as (wb & Hbig).
  pose proof (sound_Parse fuel w0) as Hs.
  destruct (Parse fuel w0) as [[] w'| |w'] eqn:E.
  - rewrite (@Parse_more_fuel fuel _ Hle w0 w' tt E) in Hbig. discriminate.
  - contradiction.
  - eauto.
Qed.

(** The loop of [Parse] from a state with [n] tokens to use up: it
    returns within [n] turns, or within [n] turns comes to a token that
    starts no statement. *)
Lemma Parse_loop_ends_or_stuck (n : nat) :
  forall w,
    remaining (w_parser w) <= n ->
    (exists w', forall F m, n <= F -> n <= m ->
       while (fun _ => more_tokens) (fun _ => statement F) m tt w = Done tt w')
    \/ (exists k w1,
          k <= n /\ loop_top n k w = Some w1
          /\ Kind (p_current (w_parser w1)) <> TokenIdentifier
          /\ Kind (p_current (w_parser w1)) <> TokenInvalid).
Proof.
  induction n as [|n IH]; intros w Hn;
    destruct (Kind (p_current (w_parser w))) eqn:Ek;
    try (left; exists w; intros F m _ _; apply while_exit;
         rewrite more_tokens_spec, Ek; reflexivity);
    try (right; exists 0, w; rewrite Ek;
         split; [lia | split; [reflexivity | split; discriminate]]).
  - unfold remaining in Hn. rewrite Ek in Hn. simpl in Hn. lia.
  - destruct (statement_remaining (S n) w Hn) as (w1 & Hs & Hlt).
    specialize (Hlt Ek).
    assert (Hc : more_tokens w = Done true w)
      by (rewrite more_tokens_spec, Ek; reflexivity).
    assert (HsF : forall F, S n <= F -> statement F w = Done tt w1)
      by (intros F HF; exact (@statement_more_fuel (S n) F HF w w1 tt Hs)).
    destruct (IH w1) as [(w' & Hdone) | (k & w2 & Hk & Ht & Hid & Hinv)]; [lia| |].
    + left. exists w'. intros F m HF Hm. destruct m as [|m]; [lia|].
      rewrite (while_turn (fun _ => more_tokens) (fun _ => statement F) m tt
                 w Hc (HsF F HF)).
      apply Hdone; lia.
    + right. exists (S k), w2. split; [lia|]. split; [|split; assumption].
      apply (loop_top_next (S n) k w w1 w2 Hc Hs).
      apply (loop_top_more_fuel n (S n)); [lia | exact Ht].
Qed.

Lemma Parse_ends_or_stuck (w : world) :
  (exists w', forall fuel, remaining (w_parser w) <= fuel ->
                           Parse fuel w = Done tt w')
  \/ (exists k w1,
        k <= remaining (w_parser w)
        /\ loop_top (remaining (w_parser w)) k (advanced w) = Some w1
        /\ Kind (p_current (w_parser w1)) <> TokenIdentifier
        /\ Kind (p_current (w_parser w1)) <> TokenInvalid).
Proof.
  pose proof (advance_remaining_le (w_parser w)) as Ha.
  destruct (Parse_loop_ends_or_stuck (remaining (w_parser w)) (advanced w) Ha)
    as [(w' & Hdone) | Hstuck].
  - left. exists w'. intros fuel Hf. unfold Parse, bind, advance, modify.
    now apply Hdone.
  - now right.
Qed.

End Termination.

(** X11. [Parse] on a new parser either returns, and then does so for
    every budget from the number of tokens on, with the same world; or
    it never returns, whatever the budget: after [k] statements, at most
    as many as there are tokens, its loop comes to a token that is
    neither an Identifier nor the Invalid sentinel and stays there, one
    "Parse error: Unexpected token" being printed for each turn of the
    budget that is left.  It does not panic.  The loops of [term] and
    [expression] always end: from any state, both methods return once
    the budget covers the tokens that are left. *)
Theorem Parse_returns_or_never (toks : list Token) (out : list string) :
  let w := mkWorld (NewParser toks) out in
  ((exists w', forall fuel, List.length toks <= fuel ->
                            Parse fuel w = Done tt w')
   \/ (exists k w1,
         k <= List.length toks
         /\ Kind (p_current (w_parser w1)) <> TokenIdentifier
         /\ Kind (p_current (w_parser w1)) <> TokenInvalid
         /\ (forall fuel, List.length toks <= fuel ->
               Parse fuel w
               = StillRunning
                   (mkWorld (w_parser w1)
                            (w_stdout w1 ++ repeat unexpected_token (fuel - k))))
         /\ (forall fuel, exists w', Parse fuel w = StillRunning w')))
  /\ (forall fuel w1,
        remaining (w_parser w1) <= fuel ->
        (exists v w', term fuel w1 = Done v w')
        /\ (exists v w', expression fuel w1 = Done v w')).
Proof.
  intros w. split.
  - assert (Hr : remaining (w_parser w) <= List.length toks)
      by (unfold w, remaining; simpl; lia).
    destruct (Parse_ends_or_stuck w)
      as [(w' & H) | (k & w1 & Hk & Ht & Hid & Hinv)].
    + left. exists w'. intros fuel Hf. apply H. lia.
    + right. exists k, w1.
      split; [lia|]. split; [exact Hid|]. split; [exact Hinv|]. split.
      * intros fuel Hf. apply (Parse_stays _ k w w1 Ht Hid Hinv); lia.
      * exact (Parse_stays_always _ k w w1 Ht Hid Hinv).
  - intros fuel w1 Hf. split.
    + destruct (term_remaining fuel w1 Hf) as (v & w' & H & _). eauto.
    + destruct (expression_remaining fuel w1 Hf) as (v & w' & H & _). eauto.
Qed.

Lemma Parse_returns_or_never_witness :
  let toks := [mkToken TokenIdentifier "y"; mkToken TokenPunctuation "=";
               mkToken TokenNumber "5"] in
  let stuck := [mkToken TokenIdentifier "y"; mkToken TokenPunctuation "=";
                mkToken TokenNumber "5"; mkToken TokenPunctuation ";"] in
  List.length toks <= 3
  /\ (exists w', Parse 3 (mkWorld (NewParser toks) []) = Done tt w')
  /\ List.length stuck <= 6
  /\ (exists k w1,
        Parse 6 (mkWorld (NewParser stuck) [])
        = StillRunning (mkWorld (w_parser w1)
                                (w_stdout w1 ++ repeat unexpected_token (6 - k)))
        /\ Kind (p_current (w_parser w1)) = TokenPunctuation)
  /\ remaining (NewParser toks) <= 3
  /\ (exists v w', expression 3 (mkWorld (NewParser toks) []) = Done v w').
Proof.
  intros toks stuck.
  split; [simpl; lia|]. split; [|split; [simpl; lia|split; [|split]]].
  - destruct (proj1 (Parse_returns_or_never toks [])) as [(w' & H) | H].
    + exists w'. apply H. simpl. lia.
    + destruct H as (k & w1 & _ & _ & _ & _ & H).
      destruct (H 3) as (w' & E). vm_compute in E. discriminate.
  - destruct (proj1 (Parse_returns_or_never stuck [])) as [(w' & H) | H].
    + specialize (H 6 ltac:(simpl; lia)). vm_compute in H. discriminate.
    + destruct H as (k & w1 & _ & Hid & Hinv & H & _).
      exists k, w1. split; [apply H; simpl; lia|].
      specialize (H 6 ltac:(simpl; lia)).
      assert (E : Parse 6 (mkWorld (NewParser stuck) [])
                  = StillRunning
                      (mkWorld (mkParser stuck (mkToken TokenPunctuation ";") 4)
                               (("Assign y = 5.000000" ++ LF)
                                  :: repeat unexpected_token 5)))
        by (vm_compute; reflexivity).
      rewrite E in H. injection H as Hp _. destruct w1 as [p1 o1].
      simpl in Hp. subst p1. reflexivity.
  - vm_compute. lia.
  - apply (proj2 (Parse_returns_or_never toks []) 3
             (mkWorld (NewParser toks) [])).
    vm_compute. lia.
Defined.

(** C4. Let the statement loop of [Parse], run on the world [w0], be
    at its top (on entry, after the opening [advance], or after any
    number [k] of statements that returned) with a current token that
    is neither an Identifier nor the Invalid sentinel.  Then [statement]
    prints "Parse error: Unexpected token" and leaves the parser, cursor
    included, as it was; the guard of the loop is true, so that the loop
    is at its top again in the same position; and [Parse] never
    returns: whatever the budget it is still running, and from a budget
    that covers the [k] turns on it is in that position, the diagnostic
    printed once for each turn that was left. *)
Theorem Parse_never_returns (F k : nat) (w0 w : world) :
  loop_top F k (advanced w0) = Some w ->
  Kind (p_current (w_parser w)) <> TokenIdentifier ->
  Kind (p_current (w_parser w)) <> TokenInvalid ->
  (forall fuel,
      statement fuel w
      = Done tt (mkWorld (w_parser w) (w_stdout w ++ [unexpected_token])))
  /\ more_tokens w = Done true w
  /\ loop_top F (S k) (advanced w0)
     = Some (mkWorld (w_parser w) (w_stdout w ++ [unexpected_token]))
  /\ (forall fuel, F <= fuel -> k <= fuel ->
        Parse fuel w0
        = StillRunning
            (mkWorld (w_parser w)
                     (w_stdout w ++ repeat unexpected_token (fuel - k))))
  /\ (forall fuel, exists w', Parse fuel w0 = StillRunning w').
Proof.
  intros Htop Hid Hinv.
  assert (Hs : forall fuel, statement fuel w = Done tt (told w unexpected_token))
    by (intros fuel; now apply statement_unexpected).
  assert (Hc : more_tokens w = Done true w).
  { rewrite more_tokens_spec.
    destruct (Kind (p_current (w_parser w))); try congruence; reflexivity. }
  split; [exact Hs|]. split; [exact Hc|]. split; [|split].
  - exact (loop_top_snoc F k (advanced w0) w _ Htop Hc (Hs F)).
  - exact (Parse_stays F k w0 w Htop Hid Hinv).
  - exact (Parse_stays_always F k w0 w Htop Hid Hinv).
Qed.

Lemma Parse_never_returns_witness :
  let toks := [mkToken TokenNumber "5"; mkToken TokenPunctuation "=";
               mkToken TokenNumber "3"] in
  let w := mkWorld (mkParser toks (mkToken TokenNumber "5") 1) [] in
  let at_plus := mkParser tokens_x_eq_sum (mkToken TokenPunctuation "+") 4 in
  let w' := mkWorld at_plus [prompt; "Assign x = 3.000000" ++ LF] in
  (returned (tokenize "5 = 3") = Some toks
   /\ loop_top 0 0 (advanced (mkWorld (NewParser toks) [])) = Some w
   /\ Kind (p_current (w_parser w)) <> TokenIdentifier
   /\ Kind (p_current (w_parser w)) <> TokenInvalid
   /\ Parse 7 (mkWorld (NewParser toks) [])
      = StillRunning (mkWorld (w_parser w) (repeat unexpected_token 7)))
  /\ (returned (tokenize "x = 3 + 4 * 2") = Some tokens_x_eq_sum
      /\ loop_top 2 1 (advanced (mkWorld (NewParser tokens_x_eq_sum) [prompt]))
         = Some w'
      /\ Kind (p_current (w_parser w')) <> TokenIdentifier
      /\ Kind (p_current (w_parser w')) <> TokenInvalid
      /\ Parse 9 (mkWorld (NewParser tokens_x_eq_sum) [prompt])
         = StillRunning
             (mkWorld at_plus
                      ([prompt; "Assign x = 3.000000" ++ LF]
                         ++ repeat unexpected_token 8))).
Proof.
  intros toks w at_plus w'. split.
  - assert (Htop : loop_top 0 0 (advanced (mkWorld (NewParser toks) [])) = Some w)
      by reflexivity.
    assert (Hid : Kind (p_current (w_parser w)) <> TokenIdentifier) by discriminate.
    assert (Hinv : Kind (p_current (w_parser w)) <> TokenInvalid) by discriminate.
    split; [vm_compute; reflexivity | split; [exact Htop|]].
    split; [exact Hid | split; [exact Hinv|]].
    destruct (Parse_never_returns 0 0 (mkWorld (NewParser toks) []) w Htop Hid Hinv)
      as (_ & _ & _ & H & _).
    rewrite (H 7); [reflexivity | lia | lia].
  - assert (Htop : loop_top 2 1
                     (advanced (mkWorld (NewParser tokens_x_eq_sum) [prompt]))
                   = Some w') by (vm_compute; reflexivity).
    assert (Hid : Kind (p_current (w_parser w')) <> TokenIdentifier) by discriminate.
    assert (Hinv : Kind (p_current (w_parser w')) <> TokenInvalid) by discriminate.
    split; [vm_compute; reflexivity | split; [exact Htop|]].
    split; [exact Hid | split; [exact Hinv|]].
    destruct (Parse_never_returns 2 1 (mkWorld (NewParser tokens_x_eq_sum) [prompt])
                w' Htop Hid Hinv) as (_ & _ & _ & H & _).
    rewrite (H 9); [reflexivity | lia | lia].
Defined.

(** X12. The whole program never panics: on every line [main] either
    returns, the same for every budget from the length of the line on,
    or is still running for every such budget. *)
Theorem main_returns_or_never (code : string) :
  (exists w', forall fuel, String.length code <= fuel ->
                           main fuel code = Done tt w')
  \/ (forall fuel, String.length code <= fuel ->
                   exists w', main fuel code = StillRunning w').
Proof.
  destruct (tokenize_returns code) as (toks & l' & Hrun).
  pose proof (Lex_sizes code toks l' Hrun) as (H1 & H2).
  assert (Hlex : forall fuel, String.length code <= fuel ->
                              Lex fuel (NewLexer code) = Done toks l')
    by (intros fuel Hf; now rewrite (@Lex_budget code fuel Hf)).
  destruct (Parse_ends_or_stays (mkWorld (NewParser toks) ["Enter code: "]))
    as [(w' & H) | H].
  - left. exists w'. intros fuel Hf. unfold main. rewrite (Hlex fuel Hf).
    apply H. unfold remaining. simpl. lia.
  - right. intros fuel Hf. unfold main. rewrite (Hlex fuel Hf). apply H.
Qed.

Lemma main_returns_or_never_witness :
  String.length "5 = 3" <= 5
  /\ exists w', main 5 "5 = 3" = StillRunning w'.
Proof.
  split; [simpl; lia|].
  destruct (main_returns_or_never "5 = 3") as [(w' & H) | H].
  - specialize (H 5 (le_n 5)). vm_compute in H. discriminate.
  - apply H. simpl. lia.
Defined.

(* ===================================================================== *)
(** ** The parser on arithmetic given with Operator tokens *)
(* ===================================================================== *)

Section Evaluation.

Lemma sees_app (a b : list Token) :
  forall p, sees p (a ++ b) ->
            sees (Nat.iter (List.length a) Parser_advance p) b.
Proof.
  induction a as [|t a IH]; intros p H; [exact H|].
  destruct H as (_ & H). simpl List.length.
  rewrite Nat.iter_succ_r. now apply IH.
Qed.

Lemma sees_head (p : Parser) (t : Token) (l : list Token) :
  sees p (t :: l) -> p_current p = t.
Proof. now intros (H & _). Qed.

Lemma sees_tail (p : Parser) (t : Token) (l : list Token) :
  sees p (t :: l) -> sees (Parser_advance p) l.
Proof. now intros (_ & H). Qed.

(** A new parser after its first [advance] has the whole sequence before
    it, and the sentinel after that. *)
Lemma sees_from (p0 : Parser) (l : list Token) :
  forall j,
    (forall i, i < List.length l ->
               p_current (Nat.iter (j + i) Parser_advance p0)
               = nth i l Token_zero) ->
    sees (Nat.iter j Parser_advance p0) l.
Proof.
  induction l as [|t l IH]; intros j H; [exact I|]. split.
  - specialize (H 0). rewrite Nat.add_0_r in H. apply H. simpl. lia.
  - apply (IH (S j)). intros i Hi. specialize (H (S i)).
    replace (j + S i) with (S j + i) in H by lia. apply H. simpl. lia.
Qed.

Lemma sees_start (toks : list Token) :
  sees (Parser_advance (NewParser toks)) (toks ++ [Token_zero]).
Proof.
  apply (sees_from (NewParser toks) (toks ++ [Token_zero]) 1).
  intros i Hi. rewrite List.length_app in Hi. simpl in Hi.
  change (1 + i) with (S i). rewrite iter_advance_new. cbn [p_current].
  destruct (Nat.lt_ge_cases i (List.length toks)) as [Hlt|Hge].
  - rewrite app_nth1 by assumption. now apply nth_indep.
  - rewrite app_nth2 by assumption.
    replace (i - List.length toks) with 0 by lia.
    now rewrite nth_overflow by assumption.
Qed.

Lemma factor_number (p : Parser) (out : list string) (n : string)
      (l : list Token) :
  sees p (mkToken TokenNumber n :: l) ->
  factor (mkWorld p out)
  = Done (number_value n) (mkWorld (Parser_advance p) out).
Proof.
  intros H. apply sees_head in H. rewrite factor_run. cbn [w_parser].
  now rewrite H.
Qed.

Lemma mul_operator_false (t : Token) (w : world) :
  p_current (w_parser w) = t -> mul_operator t = false ->
  operator_is "*" "/" w = Done false w.
Proof.
  intros <- H. rewrite operator_is_spec. f_equal.
  unfold mul_operator in H. simpl in H. now rewrite orb_false_r in H.
Qed.

Lemma add_operator_false (t : Token) (w : world) :
  p_current (w_parser w) = t -> arith_operator t = false ->
  operator_is "+" "-" w = Done false w.
Proof.
  intros <- H. rewrite operator_is_spec. f_equal.
  unfold arith_operator in H. simpl in H.
  destruct (TokenKind_eqb _ _); [|reflexivity]. simpl in *.
  rewrite !orb_false_iff in H. destruct H as (-> & -> & _). reflexivity.
Qed.

Lemma arith_not_mul (t : Token) :
  arith_operator t = false -> mul_operator t = false.
Proof.
  unfold arith_operator, mul_operator. simpl.
  destruct (TokenKind_eqb _ _); [|reflexivity]. simpl. intros H.
  rewrite !orb_false_iff in H. destruct H as (_ & _ & -> & -> & _).
  reflexivity.
Qed.

(** The loop of [term] over the factors [fs]. *)
Lemma term_loop_evaluates (fs : list (mulop * string)) :
  forall (acc : float64) (p : Parser) (out : list string) (t : Token)
         (rest : list Token) (fuel : nat),
    sees p (factors_tokens fs ++ t :: rest) ->
    mul_operator t = false ->
    List.length fs <= fuel ->
    while (fun _ => operator_is "*" "/") term_body fuel acc (mkWorld p out)
    = Done (fold_left apply_mulop fs acc)
           (mkWorld (Nat.iter (List.length (factors_tokens fs)) Parser_advance p)
                    out).
Proof.
  induction fs as [|[op n] fs IH]; intros acc p out t rest fuel Hs Ht Hf.
  - apply while_exit. apply sees_head in Hs.
    now apply (mul_operator_false t).
  - destruct fuel as [|fuel]; [simpl in Hf; lia|].
    simpl in Hs. destruct Hs as (Hop & Hn & Hs).
    rewrite (while_turn (fun _ => operator_is "*" "/") term_body fuel acc
               (a' := apply_mulop acc (op, n))
               (mkWorld p out) (s1 := mkWorld p out)
               (s2 := mkWorld (Parser_advance (Parser_advance p)) out)).
    + rewrite (IH _ _ out t rest fuel Hs Ht) by (simpl in Hf; lia).
      simpl fold_left. f_equal. f_equal. simpl List.length.
      now rewrite !Nat.iter_succ_r.
    + rewrite operator_is_spec. cbn [w_parser]. rewrite Hop.
      destruct op; reflexivity.
    + unfold term_body, bind, current, gets, advance, modify.
      cbn [w_parser w_stdout].
      rewrite (factor_number (Parser_advance p) out n
                 (factors_tokens fs ++ t :: rest)) by (split; assumption).
      rewrite Hop. destruct op; reflexivity.
Qed.

Lemma term_evaluates (tm : term_ast) (p : Parser) (out : list string)
      (t : Token) (rest : list Token) (fuel : nat) :
  sees p (term_tokens tm ++ t :: rest) ->
  mul_operator t = false ->
  List.length (term_tokens tm) <= fuel ->
  term fuel (mkWorld p out)
  = Done (term_value tm)
         (mkWorld (Nat.iter (List.length (term_tokens tm)) Parser_advance p) out).
Proof.
  destruct tm as [n fs]. intros Hs Ht Hf. unfold term, bind.
  rewrite (factor_number p out n ((factors_tokens fs ++ t :: rest))) by exact Hs.
  apply sees_tail in Hs.
  rewrite (term_loop_evaluates fs _ _ out t rest fuel Hs Ht).
  - change (List.length (term_tokens (n, fs)))
      with (S (List.length (factors_tokens fs))).
    now rewrite Nat.iter_succ_r.
  - unfold term_tokens, factors_tokens in Hf. simpl in Hf.
    assert (List.length fs <= List.length (factors_tokens fs)).
    { clear. induction fs as [|f fs IH]; simpl; lia. }
    unfold factors_tokens in *. lia.
Qed.

(** What follows a term inside an expression does not continue it. *)
Lemma after_term (ts : list (addop * term_ast)) (t : Token) (rest : list Token) :
  arith_operator t = false ->
  exists t' rest', (terms_tokens ts ++ t :: rest)%list = t' :: rest'
                   /\ mul_operator t' = false.
Proof.
  intros Ht. destruct ts as [|[op tm] ts]; simpl.
  - exists t, rest. split; [reflexivity | now apply arith_not_mul].
  - eexists; eexists. split; [reflexivity|]. destruct op; reflexivity.
Qed.

Lemma terms_tokens_length (ts : list (addop * term_ast)) :
  List.length ts <= List.length (terms_tokens ts)
  /\ Forall (fun a => List.length (term_tokens (snd a))
                      <= List.length (terms_tokens ts)) ts.
Proof.
  induction ts as [|[op tm] ts (IH1 & IH2)]; simpl.
  - split; [lia | constructor].
  - rewrite List.length_app. split; [simpl; lia|]. constructor.
    + simpl. lia.
    + eapply Forall_impl; [|exact IH2]. simpl. intros; lia.
Qed.

(** The loop of [expression] over the terms [ts]. *)
Lemma expression_loop_evaluates (ts : list (addop * term_ast)) :
  forall (acc : float64) (p : Parser) (out : list string) (t : Token)
         (rest : list Token) (fuel budget : nat),
    sees p (terms_tokens ts ++ t :: rest) ->
    arith_operator t = false ->
    List.length (terms_tokens ts) <= fuel ->
    List.length ts <= budget ->
    while (fun _ => operator_is "+" "-") (expression_body fuel) budget acc
          (mkWorld p out)
    = Done (fold_left apply_addop ts acc)
           (mkWorld (Nat.iter (List.length (terms_tokens ts)) Parser_advance p)
                    out).
Proof.
  induction ts as [|[op tm] ts IH];
    intros acc p out t rest fuel budget Hs Ht Hf Hb.
  - apply while_exit. apply sees_head in Hs.
    now apply (add_operator_false t).
  - destruct budget as [|budget]; [simpl in Hb; lia|].
    change (sees p (mkToken TokenOperator (addop_text op)
                    :: ((term_tokens tm ++ terms_tokens ts) ++ t :: rest)))
      in Hs.
    pose proof (sees_head _ _ _ Hs) as Hop. apply sees_tail in Hs.
    change (List.length (terms_tokens ((op, tm) :: ts)))
      with (S (List.length (term_tokens tm ++ terms_tokens ts))) in Hf.
    rewrite List.length_app in Hf.
    rewrite <- app_assoc in Hs.
    destruct (after_term ts t rest Ht) as (t' & rest' & Heq & Ht').
    rewrite Heq in Hs.
    pose proof (term_evaluates tm (Parser_advance p) out t' rest' fuel Hs Ht')
      as Hterm.
    rewrite (while_turn (fun _ => operator_is "+" "-") (expression_body fuel)
               budget acc
               (a' := apply_addop acc (op, tm))
               (mkWorld p out) (s1 := mkWorld p out)
               (s2 := mkWorld (Nat.iter (List.length (term_tokens tm))
                                        Parser_advance (Parser_advance p)) out)).
    + apply sees_app in Hs. rewrite <- Heq in Hs.
      rewrite (IH _ _ out t rest fuel budget Hs Ht) by (simpl in *; lia).
      simpl fold_left. f_equal. f_equal.
      change (List.length (terms_tokens ((op, tm) :: ts)))
        with (S (List.length (term_tokens tm ++ terms_tokens ts))).
      rewrite List.length_app, Nat.iter_succ_r, Nat.add_comm.
      now rewrite Nat.iter_add.
    + rewrite operator_is_spec. cbn [w_parser]. rewrite Hop.
      destruct op; reflexivity.
    + unfold expression_body, bind, current, gets, advance, modify.
      cbn [w_parser w_stdout]. rewrite Hterm by lia.
      rewrite Hop. destruct op; reflexivity.
Qed.

Lemma expression_evaluates_on (e : expr_ast) (p : Parser) (out : list string)
      (t : Token) (rest : list Token) (fuel : nat) :
  sees p (expr_tokens e ++ t :: rest) ->
  arith_operator t = false ->
  List.length (expr_tokens e) <= fuel ->
  expression fuel (mkWorld p out)
  = Done (expr_value e)
         (mkWorld (Nat.iter (List.length (expr_tokens e)) Parser_advance p) out).
Proof.
  destruct e as [tm ts]. unfold expr_tokens, expr_value. cbn [fst snd].
  intros Hs Ht Hf. rewrite List.length_app in Hf.
  rewrite <- app_assoc in Hs.
  destruct (after_term ts t rest Ht) as (t' & rest' & Heq & Ht').
  unfold expression, bind.
  rewrite Heq in Hs.
  rewrite (term_evaluates tm p out t' rest' fuel Hs Ht') by lia.
  apply sees_app in Hs. rewrite <- Heq in Hs.
  pose proof (terms_tokens_length ts) as (Hl & _).
  rewrite (expression_loop_evaluates ts _ _ out t rest fuel fuel Hs Ht)
    by lia.
  rewrite List.length_app, Nat.add_comm. now rewrite Nat.iter_add.
Qed.

End Evaluation.

(** X13. Precedence and associativity.  When the parser has before it
    the tokens of an expression (numbers joined by Operator tokens "*"
    and "/" into terms, terms joined by Operator tokens "+" and "-"),
    followed by a token that is no operator sign, [expression] returns
    the value of the expression, every term computed first and
    everything from left to right, moves the cursor past exactly these
    tokens and prints nothing. *)
Theorem expression_evaluates (e : expr_ast) (p : Parser) (out : list string)
        (t : Token) (rest : list Token) (fuel : nat) :
  sees p (expr_tokens e ++ t :: rest) ->
  arith_operator t = false ->
  List.length (expr_tokens e) <= fuel ->
  expression fuel (mkWorld p out)
  = Done (expr_value e)
         (mkWorld (Nat.iter (List.length (expr_tokens e)) Parser_advance p) out).
Proof. apply expression_evaluates_on. Qed.

Lemma expression_evaluates_witness :
  let e : expr_ast :=
    (("2", []), [(Plus, ("3", [(Times, "4")])); (Minus, ("6", [(Over, "2")]))]) in
  let toks := expr_tokens e in
  let p := Parser_advance (NewParser toks) in
  sees p (toks ++ [Token_zero])
  /\ arith_operator Token_zero = false
  /\ List.length toks <= 9
  /\ expression 9 (mkWorld p [])
     = Done (S754_finite false 6192449487634432 (-49))
            (mkWorld (mkParser toks (mkToken TokenInvalid "") 9) []).
Proof.
  intros e toks p.
  assert (Hs : sees p (toks ++ [Token_zero])) by (simpl; repeat split).
  assert (Hl : List.length toks <= 9) by (simpl; lia).
  split; [exact Hs | split; [reflexivity | split; [exact Hl|]]].
  rewrite (expression_evaluates e p [] Token_zero [] 9 Hs eq_refl Hl).
  vm_compute. reflexivity.
Defined.

(* ===================================================================== *)
(** ** Whole programs *)
(* ===================================================================== *)

Section Programs.

Lemma statement_assigns (a : string * expr_ast) (p : Parser)
      (out : list string) (t : Token) (rest : list Token) (fuel : nat) :
  sees p (assignment_tokens a ++ t :: rest) ->
  arith_operator t = false ->
  List.length (expr_tokens (snd a)) <= fuel ->
  statement fuel (mkWorld p out)
  = Done tt (mkWorld (Nat.iter (List.length (assignment_tokens a))
                               Parser_advance p)
                     (out ++ [assignment_line a])).
Proof.
  destruct a as [x e]. intros Hs Ht Hf.
  change (sees p (mkToken TokenIdentifier x :: mkToken TokenPunctuation "="
                  :: (expr_tokens e ++ t :: rest))) in Hs.
  pose proof (sees_head _ _ _ Hs) as Hx. apply sees_tail in Hs.
  pose proof (sees_head _ _ _ Hs) as Heq. apply sees_tail in Hs.
  unfold statement, bind, current, gets. cbv beta iota. cbn [w_parser].
  rewrite Hx. cbn [Kind TokenKind_eqb].
  unfold assignmentStatement, bind, current, gets, advance, modify.
  cbv beta iota. cbn [w_parser w_stdout]. rewrite Hx, Heq.
  cbn [Value String.eqb Ascii.eqb Bool.eqb negb andb].
  cbn [w_parser w_stdout].
  rewrite (expression_evaluates_on e _ out t rest fuel Hs Ht Hf).
  unfold Print, modify. cbn [w_parser w_stdout fst snd].
  change (List.length (assignment_tokens (x, e)))
    with (S (S (List.length (expr_tokens e)))).
  now rewrite !Nat.iter_succ_r.
Qed.

(** What follows an assignment in a program is no operator sign. *)
Lemma after_assignment (prog : program) :
  exists t rest, (program_tokens prog ++ [Token_zero])%list = t :: rest
                 /\ arith_operator t = false.
Proof.
  destruct prog as [|[x e] prog]; simpl; eexists; eexists;
    (split; [reflexivity | reflexivity]).
Qed.

Lemma assignment_tokens_length (a : string * expr_ast) :
  List.length (assignment_tokens a)
  = S (S (List.length (expr_tokens (snd a)))).
Proof. reflexivity. Qed.

Lemma Parse_loop_program (prog : program) :
  forall (p : Parser) (out : list string) (fuel budget : nat),
    sees p (program_tokens prog ++ [Token_zero]) ->
    List.length (program_tokens prog) <= fuel ->
    List.length prog <= budget ->
    while (fun _ => more_tokens) (fun _ => statement fuel) budget tt
          (mkWorld p out)
    = Done tt (mkWorld (Nat.iter (List.length (program_tokens prog))
                                 Parser_advance p)
                       (out ++ map assignment_line prog)).
Proof.
  induction prog as [|a prog IH]; intros p out fuel budget Hs Hf Hb.
  - simpl. rewrite app_nil_r. apply while_exit.
    apply sees_head in Hs. rewrite more_tokens_spec. cbn [w_parser].
    now rewrite Hs.
  - destruct budget as [|budget]; [simpl in Hb; lia|].
    change (program_tokens (a :: prog))
      with (assignment_tokens a ++ program_tokens prog)%list in *.
    rewrite List.length_app, assignment_tokens_length in Hf.
    rewrite <- app_assoc in Hs.
    destruct (after_assignment prog) as (t & rest & Heq & Ht).
    rewrite Heq in Hs.
    rewrite (while_turn (fun _ => more_tokens) (fun _ => statement fuel)
               budget tt (a' := tt) (mkWorld p out) (s1 := mkWorld p out)
               (s2 := mkWorld (Nat.iter (List.length (assignment_tokens a))
                                        Parser_advance p)
                              (out ++ [assignment_line a]))).
    + apply sees_app in Hs. rewrite <- Heq in Hs.
      rewrite (IH _ _ fuel budget Hs) by (simpl in Hb; lia).
      rewrite List.length_app, (Nat.add_comm (List.length (assignment_tokens a))).
      rewrite Nat.iter_add, <- app_assoc. reflexivity.
    + rewrite more_tokens_spec. cbn [w_parser].
      destruct a as [x e]. apply sees_head in Hs. now rewrite Hs.
    + apply (statement_assigns a p out t rest fuel Hs Ht). lia.
Qed.

Lemma program_length (prog : program) :
  List.length prog <= List.length (program_tokens prog).
Proof.
  induction prog as [|a prog IH]; simpl; [lia|].
  rewrite List.length_app. lia.
Qed.

Lemma Parse_runs_program (prog : program) (out : list string) (fuel : nat) :
  List.length (program_tokens prog) <= fuel ->
  Parse fuel (mkWorld (NewParser (program_tokens prog)) out)
  = Done tt (mkWorld (mkParser (program_tokens prog)
                               (mkToken TokenInvalid "")
                               (List.length (program_tokens prog)))
                     (out ++ map assignment_line prog)).
Proof.
  intros Hf. unfold Parse, bind, advance, modify. cbn [w_parser w_stdout].
  pose proof (program_length prog) as Hl.
  rewrite (Parse_loop_program prog _ out fuel fuel
             (sees_start (program_tokens prog)) Hf) by lia.
  rewrite <- Nat.iter_succ_r, iter_advance_new.
  rewrite nth_overflow by lia. do 3 f_equal. lia.
Qed.

End Programs.

(** X14. A program of assignments, its arithmetic given with Operator
    tokens: [Parse] returns, having printed for each assignment, in
    order, the line "Assign <identifier> = <value>" with the value of
    its expression (terms first, from left to right), and nothing else;
    the cursor is at the end and the current token is the sentinel. *)
Theorem Parse_program (prog : program) (out : list string) (fuel : nat) :
  List.length (program_tokens prog) <= fuel ->
  Parse fuel (mkWorld (NewParser (program_tokens prog)) out)
  = Done tt (mkWorld (mkParser (program_tokens prog)
                               (mkToken TokenInvalid "")
                               (List.length (program_tokens prog)))
                     (out ++ map assignment_line prog)).
Proof. apply Parse_runs_program. Qed.

Lemma Parse_program_witness :
  let prog : program :=
    [("a", (("1", [(Over, "4")]), [(Plus, ("2", []))])); ("b", (("7", []), []))] in
  List.length (program_tokens prog) <= 10
  /\ exists w, Parse 10 (mkWorld (NewParser (program_tokens prog)) []) = Done tt w
               /\ w_stdout w = ["Assign a = 2.250000" ++ LF;
                                "Assign b = 7.000000" ++ LF].
Proof.
  intros prog. split; [simpl; lia|].
  eexists. split.
  - apply (Parse_program prog [] 10). simpl. lia.
  - vm_compute. reflexivity.
Defined.

(* ===================================================================== *)
(** ** From the line typed to the lines printed *)
(* ===================================================================== *)

Section Lines.

Lemma letter_not_digit (c : ascii) :
  IsLetter (rune_of_byte c) = true -> IsDigit (rune_of_byte c) = false.
Proof. by_bytes c. Qed.

Lemma digit_not_space (c : ascii) :
  IsDigit (rune_of_byte c) = true -> IsSpace (rune_of_byte c) = false.
Proof. by_bytes c. Qed.

Lemma letter_not_space (c : ascii) :
  IsLetter (rune_of_byte c) = true -> IsSpace (rune_of_byte c) = false.
Proof. by_bytes c. Qed.

(** A text all of whose bytes continue the token is that token. *)
Lemma scan_all (m : mode) (s : string) :
  forall acc, all_bytes (continues m) s = true ->
              scan m acc s = flush m (acc ++ s).
Proof.
  induction s as [|c s IH]; intros acc H; simpl in *.
  - now rewrite append_nil_r.
  - apply andb_true_iff in H. destruct H as (Hc & Hs).
    rewrite Hc, (IH _ Hs), append_assoc. reflexivity.
Qed.

Lemma scan_identifier (x : string) :
  shape_ok (mkToken TokenIdentifier x) = true ->
  scan Between "" x = [mkToken TokenIdentifier x].
Proof.
  unfold shape_ok. cbn [Kind Value]. destruct x as [|c x]; [discriminate|].
  simpl. rewrite !andb_true_iff. intros (Hl & _ & Hx).
  rewrite (letter_not_space c Hl), (letter_not_digit c Hl), Hl.
  now rewrite (scan_all InIdentifier x _ Hx).
Qed.

Lemma scan_number (n : string) :
  shape_ok (mkToken TokenNumber n) = true ->
  scan Between "" n = [mkToken TokenNumber n].
Proof.
  unfold shape_ok. cbn [Kind Value]. destruct n as [|c n]; [discriminate|].
  simpl. rewrite !andb_true_iff. intros (Hd & _ & Hn).
  rewrite (digit_not_space c Hd), Hd.
  now rewrite (scan_all InNumber n _ Hn).
Qed.

Lemma scan_source (l : list (string * string)) :
  well_typed_line l = true ->
  scan Between "" (source_of l) = program_tokens (numbers_program l).
Proof.
  induction l as [|[x n] l IH]; [reflexivity|].
  intros H. simpl in H. rewrite !andb_true_iff in H.
  destruct H as ((Hx & Hn) & Hl).
  change (source_of ((x, n) :: l))
    with (x ++ String " " (String "=" "" ++ String " " (n ++ String " " (source_of l)))).
  rewrite (scan_separated x _ " " eq_refl).
  rewrite (scan_separated (String "=" "") _ " " eq_refl).
  rewrite (scan_separated n _ " " eq_refl).
  rewrite (scan_identifier x Hx), (scan_number n Hn), (IH Hl).
  reflexivity.
Qed.

Lemma main_runs_line (l : list (string * string)) (fuel : nat) :
  well_typed_line l = true ->
  String.length (source_of l) <= fuel ->
  main fuel (source_of l)
  = Done tt (mkWorld (mkParser (program_tokens (numbers_program l))
                               (mkToken TokenInvalid "")
                               (List.length (program_tokens (numbers_program l))))
                     ("Enter code: " :: map assignment_line (numbers_program l))).
Proof.
  intros Hl Hf. unfold main. rewrite (@Lex_budget (source_of l) fuel Hf).
  destruct (tokenize_returns (source_of l)) as (toks & l' & Hrun).
  pose proof (Lex_sizes _ _ _ Hrun) as (H1 & H2).
  rewrite Hrun. rewrite (Lex_scans _ _ _ Hrun), (scan_source l Hl) in *.
  cbn [w_stdout]. now rewrite Parse_runs_program by lia.
Qed.

End Lines.

(** X15. The program on a line of assignments of numbers.  For every
    line made of assignments "<identifier> = <number> ", the identifiers
    being letters followed by letters, digits and underscores and the
    numbers digits followed by digits and points, [main] returns having
    printed, after its prompt, one line "Assign <identifier> = <value>"
    for each assignment, in order, the value being what [ParseFloat]
    makes of the number (0 when it is malformed, such as "1.2.3"). *)
Theorem main_assigns_numbers (l : list (string * string)) (fuel : nat) :
  well_typed_line l = true ->
  String.length (source_of l) <= fuel ->
  main fuel (source_of l)
  = Done tt (mkWorld (mkParser (program_tokens (numbers_program l))
                               (mkToken TokenInvalid "")
                               (List.length (program_tokens (numbers_program l))))
                     ("Enter code: "
                        :: map (fun a => "Assign " ++ fst a ++ " = "
                                         ++ strconv.FormatFloat_f6
                                              (number_value (snd a)) ++ LF) l)).
Proof.
  intros Hl Hf. rewrite (main_runs_line l fuel Hl Hf).
  unfold numbers_program. now rewrite map_map.
Qed.

Lemma main_assigns_numbers_witness :
  well_typed_line [("y", "5"); ("z_1", "0.25"); ("bad", "1.2.3")] = true
  /\ source_of [("y", "5"); ("z_1", "0.25"); ("bad", "1.2.3")]
     = "y = 5 z_1 = 0.25 bad = 1.2.3 "
  /\ String.length "y = 5 z_1 = 0.25 bad = 1.2.3 " <= 29
  /\ exists w, main 29 "y = 5 z_1 = 0.25 bad = 1.2.3 " = Done tt w
               /\ w_stdout w = ["Enter code: ";
                                "Assign y = 5.000000" ++ LF;
                                "Assign z_1 = 0.250000" ++ LF;
                                "Assign bad = 0.000000" ++ LF].
Proof.
  split; [reflexivity | split; [reflexivity | split; [simpl; lia|]]].
  eexists. split.
  - apply (main_assigns_numbers
             [("y", "5"); ("z_1", "0.25"); ("bad", "1.2.3")] 29);
      [reflexivity | simpl; lia].
  - vm_compute. reflexivity.
Defined.

(** X16. A statement whose right-hand side is missing.  When the
    parser has before it an identifier, a token of text "=" and a token
    that is neither a Number nor an operator sign (an identifier, a
    punctuation, the end of the sequence), [statement] prints the
    diagnostic of [factor] for that token and then, all the same, the
    binding of the identifier to 0; the cursor is left on that token. *)
Theorem statement_missing_operand
        (p : Parser) (out : list string) (x : string) (eq t : Token)
        (rest : list Token) (fuel : nat) :
  sees p (mkToken TokenIdentifier x :: eq :: t :: rest) ->
  Value eq = "=" ->
  Kind t <> TokenNumber ->
  arith_operator t = false ->
  statement fuel (mkWorld p out)
  = Done tt (mkWorld (Parser_advance (Parser_advance p))
                     (out ++ [factor_diagnostic t;
                              "Assign " ++ x ++ " = 0.000000" ++ LF])).
Proof.
  intros Hs Heq Hk Ht.
  pose proof (sees_head _ _ _ Hs) as Hx. apply sees_tail in Hs.
  pose proof (sees_head _ _ _ Hs) as He. apply sees_tail in Hs.
  apply sees_head in Hs.
  set (w2 := mkWorld (Parser_advance (Parser_advance p)) out).
  set (w3 := mkWorld (Parser_advance (Parser_advance p))
                     (out ++ [factor_diagnostic t])).
  assert (Hfac : factor w2 = Done f64_zero w3).
  { rewrite factor_run. unfold w2, w3, told, factor_diagnostic.
    cbn [w_parser w_stdout]. rewrite Hs.
    destruct (Kind t); try reflexivity. congruence. }
  assert (Hterm : term fuel w2 = Done f64_zero w3).
  { unfold term, bind. rewrite Hfac. apply while_exit.
    apply (mul_operator_false t); [exact Hs | now apply arith_not_mul]. }
  assert (Hexp : expression fuel w2 = Done f64_zero w3).
  { unfold expression, bind. rewrite Hterm. apply while_exit.
    now apply (add_operator_false t). }
  unfold statement, bind, current, gets. cbv beta iota. cbn [w_parser].
  rewrite Hx. cbn [Kind TokenKind_eqb].
  unfold assignmentStatement, bind, current, gets, advance, modify.
  cbv beta iota. cbn [w_parser w_stdout]. rewrite Hx, He, Heq.
  cbn [Value]. rewrite String.eqb_refl. cbn [negb w_parser w_stdout].
  fold w2. rewrite Hexp.
  unfold Print, modify, w3. cbn [w_parser w_stdout].
  now rewrite <- app_assoc.
Qed.

Lemma statement_missing_operand_witness :
  let toks := [mkToken TokenIdentifier "x"; mkToken TokenPunctuation "="] in
  let p := Parser_advance (NewParser toks) in
  sees p (mkToken TokenIdentifier "x" :: mkToken TokenPunctuation "="
          :: Token_zero :: [])
  /\ Kind Token_zero <> TokenNumber
  /\ arith_operator Token_zero = false
  /\ statement 0 (mkWorld p [])
     = Done tt (mkWorld (mkParser toks (mkToken TokenInvalid "") 2)
                        ["Parse error: Invalid expression" ++ LF;
                         "Assign x = 0.000000" ++ LF]).
Proof.
  intros toks p.
  assert (Hs : sees p (mkToken TokenIdentifier "x"
                       :: mkToken TokenPunctuation "=" :: Token_zero :: []))
    by (simpl; repeat split).
  assert (Hk : Kind Token_zero <> TokenNumber) by discriminate.
  split; [exact Hs | split; [exact Hk | split; [reflexivity|]]].
  rewrite (statement_missing_operand p [] "x" (mkToken TokenPunctuation "=")
             Token_zero [] 0 Hs eq_refl Hk eq_refl).
  reflexivity.
Defined.
